(** * viamd: format registry, loader state and the cached trajectory facade

    A shallow embedding of the loader translation unit (the file that
    includes [loader.h]) and of the declarations of [src/loader.h].
    C integers are [Z], pointers that may be null are [option], strings
    ([str_t]) are [string].  Functions keep the names of the source. *)

From Stdlib Require Import ZArith List String Ascii Bool Lia.
From Stdlib Require QArith.
From Stdlib Require Import Permutation.
Import ListNotations.

Local Open Scope string_scope.
Local Open Scope Z_scope.

(** ** Outcomes

    An operation either returns a value in a final state, or stops at a
    failed [ASSERT] or at an undefined operation, in the state reached.

    [ASSERT] is the checked assertion of a build that keeps assertions.
    Where a property rests on an assertion, the function is given a second
    time as a build compiles it in which [ASSERT] expands to nothing; those
    definitions end in [_unchecked]. *)

Inductive fault : Type :=
| AssertionFailed
| DivisionByZero
| OutOfBounds
| NullPointer.

Inductive outcome (S A : Type) : Type :=
| Done (a : A) (s : S)
| Abort (f : fault) (s : S).

Arguments Done {S A} a s.
Arguments Abort {S A} f s.

Definition bind {S A B} (m : outcome S A) (k : A -> S -> outcome S B) : outcome S B :=
  match m with
  | Done a s => k a s
  | Abort f s => Abort f s
  end.

(** [ASSERT(c)] *)
Definition ASSERT {S} (c : bool) (s : S) : outcome S unit :=
  if c then Done tt s else Abort AssertionFailed s.

(** ** Strings ([core/md_str.h]) *)

Definition to_lower (c : ascii) : ascii :=
  let n := nat_of_ascii c in
  if ((65 <=? n) && (n <=? 90))%nat then ascii_of_nat (n + 32) else c.

(** [str_eq]: same length, same bytes. *)
Fixpoint str_eq (a b : string) : bool :=
  match a, b with
  | EmptyString, EmptyString => true
  | String c a', String d b' => Ascii.eqb c d && str_eq a' b'
  | _, _ => false
  end.

(** [str_eq_ignore_case]: same length, same bytes up to ASCII letter case. *)
Fixpoint str_eq_ignore_case (a b : string) : bool :=
  match a, b with
  | EmptyString, EmptyString => true
  | String c a', String d b' =>
      Ascii.eqb (to_lower c) (to_lower d) && str_eq_ignore_case a' b'
  | _, _ => false
  end.

(** Splitting at a delimiter: [cur] is the token being read. *)
Fixpoint split_delim (delim : ascii) (cur : string) (s : string) : list string :=
  match s with
  | EmptyString => [cur]
  | String c s' =>
      if Ascii.eqb c delim then cur :: split_delim delim EmptyString s'
      else split_delim delim (cur ++ String c EmptyString)%string s'
  end.

(** [extract_tokens_delim(tok, cap, &str, delim)]: at most [cap] tokens. *)
Definition extract_tokens_delim (cap : nat) (s : string) (delim : ascii) : list string :=
  match s with
  | EmptyString => []
  | _ => firstn cap (split_delim delim EmptyString s)
  end.

(** ** Backends

    The loader interfaces are objects of the parser library; a pointer to
    one is identified by the object it points to. *)

Inductive md_molecule_loader_i : Type :=
| md_pdb_molecule_api
| md_gro_molecule_api
| md_xyz_molecule_api
| md_mmcif_molecule_api
| md_lammps_molecule_api
| md_other_molecule_api (n : nat).

Inductive md_trajectory_loader_i : Type :=
| md_pdb_trajectory_loader
| md_xtc_trajectory_loader
| md_trr_trajectory_loader
| md_xyz_trajectory_loader
| md_other_trajectory_loader (n : nat).

Definition mol_loader_ptr_eqb (a b : md_molecule_loader_i) : bool :=
  match a, b with
  | md_pdb_molecule_api, md_pdb_molecule_api => true
  | md_gro_molecule_api, md_gro_molecule_api => true
  | md_xyz_molecule_api, md_xyz_molecule_api => true
  | md_mmcif_molecule_api, md_mmcif_molecule_api => true
  | md_lammps_molecule_api, md_lammps_molecule_api => true
  | md_other_molecule_api n, md_other_molecule_api m => Nat.eqb n m
  | _, _ => false
  end.

(** ** The enumerated loaders used by [init_loader_state] *)

Inductive mol_loader_t : Type :=
| MOL_LOADER_UNKNOWN
| MOL_LOADER_PDB
| MOL_LOADER_GRO
| MOL_LOADER_XYZ
| MOL_LOADER_CIF
| MOL_LOADER_LAMMPS.

Definition mol_loader_ext (l : mol_loader_t) : string :=
  match l with
  | MOL_LOADER_UNKNOWN => ""
  | MOL_LOADER_PDB => "pdb"
  | MOL_LOADER_GRO => "gro"
  | MOL_LOADER_XYZ => "xyz;xmol;arc"
  | MOL_LOADER_CIF => "cif"
  | MOL_LOADER_LAMMPS => "data"
  end.

Definition mol_loader_api (l : mol_loader_t) : option md_molecule_loader_i :=
  match l with
  | MOL_LOADER_UNKNOWN => None
  | MOL_LOADER_PDB => Some md_pdb_molecule_api
  | MOL_LOADER_GRO => Some md_gro_molecule_api
  | MOL_LOADER_XYZ => Some md_xyz_molecule_api
  | MOL_LOADER_CIF => Some md_mmcif_molecule_api
  | MOL_LOADER_LAMMPS => Some md_lammps_molecule_api
  end.

Inductive traj_loader_t : Type :=
| TRAJ_LOADER_UNKNOWN
| TRAJ_LOADER_PDB
| TRAJ_LOADER_XTC
| TRAJ_LOADER_TRR
| TRAJ_LOADER_XYZ.

Definition traj_loader_ext (l : traj_loader_t) : string :=
  match l with
  | TRAJ_LOADER_UNKNOWN => ""
  | TRAJ_LOADER_PDB => "pdb"
  | TRAJ_LOADER_XTC => "xtc"
  | TRAJ_LOADER_TRR => "trr"
  | TRAJ_LOADER_XYZ => "xyz;xmol;arc"
  end.

Definition traj_loader_api (l : traj_loader_t) : option md_trajectory_loader_i :=
  match l with
  | TRAJ_LOADER_UNKNOWN => None
  | TRAJ_LOADER_PDB => Some md_pdb_trajectory_loader
  | TRAJ_LOADER_XTC => Some md_xtc_trajectory_loader
  | TRAJ_LOADER_TRR => Some md_trr_trajectory_loader
  | TRAJ_LOADER_XYZ => Some md_xyz_trajectory_loader
  end.

(** The loop [for (i = 1; i < COUNT; ++i)] over the remaining enumerators. *)
Fixpoint mol_loader_from_ext_loop (rest : list mol_loader_t) (ext : string) : mol_loader_t :=
  match rest with
  | [] => MOL_LOADER_UNKNOWN
  | i :: rest' =>
      let tok := extract_tokens_delim 16 (mol_loader_ext i) ";" in
      if existsb (fun t => str_eq_ignore_case ext t) tok then i
      else mol_loader_from_ext_loop rest' ext
  end.

Definition mol_loader_from_ext (ext : string) : mol_loader_t :=
  mol_loader_from_ext_loop
    [MOL_LOADER_PDB; MOL_LOADER_GRO; MOL_LOADER_XYZ; MOL_LOADER_CIF; MOL_LOADER_LAMMPS] ext.

Fixpoint traj_loader_from_ext_loop (rest : list traj_loader_t) (ext : string) : traj_loader_t :=
  match rest with
  | [] => TRAJ_LOADER_UNKNOWN
  | i :: rest' =>
      let tok := extract_tokens_delim 16 (traj_loader_ext i) ";" in
      if existsb (fun t => str_eq_ignore_case ext t) tok then i
      else traj_loader_from_ext_loop rest' ext
  end.

Definition traj_loader_from_ext (ext : string) : traj_loader_t :=
  traj_loader_from_ext_loop
    [TRAJ_LOADER_PDB; TRAJ_LOADER_XTC; TRAJ_LOADER_TRR; TRAJ_LOADER_XYZ] ext.

(** ** The table of namespace [load] *)

Definition NUM_ENTRIES : nat := 9.

Module table_entry_t.
Record t : Type := {
  name : list string;
  ext : list string;
  mol_loader : list (option md_molecule_loader_i);
  traj_loader : list (option md_trajectory_loader_i);
  flags : list Z
}.
End table_entry_t.

Definition FLAG_NONE : Z := 0.
Definition FLAG_REQUIRES_DIALOGUE : Z := Z.shiftl 1 0.

(** The initializer gives four of the five arrays; [flags] has none and
    is zero-initialized. *)
Definition table : table_entry_t.t := {|
  table_entry_t.name := [ "Standard Protein Data Bank (pdb)";
            "Gromacs Structure (gro)";
            "Gromacs Compressed Trajectory (xtc)";
            "Gromacs Lossless Trajectory (trr)";
            "xyz (xyz)";
            "xyz (xmol)";
            "xyz (arc)";
            "PDBx/mmCIF (cif)";
            "LAMMPS (data)" ];
  table_entry_t.ext := [ "pdb"; "gro"; "xtc"; "trr"; "xyz"; "xmol"; "arc"; "cif"; "data" ];
  table_entry_t.mol_loader := [ Some md_pdb_molecule_api;
                  Some md_gro_molecule_api;
                  None;
                  None;
                  Some md_xyz_molecule_api;
                  Some md_xyz_molecule_api;
                  Some md_xyz_molecule_api;
                  Some md_mmcif_molecule_api;
                  Some md_lammps_molecule_api ];
  table_entry_t.traj_loader := [ Some md_pdb_trajectory_loader;
                   None;
                   Some md_xtc_trajectory_loader;
                   Some md_trr_trajectory_loader;
                   Some md_xyz_trajectory_loader;
                   Some md_xyz_trajectory_loader;
                   Some md_xyz_trajectory_loader;
                   None;
                   None ];
  table_entry_t.flags := repeat 0 NUM_ENTRIES
|}.

Definition loader_count : nat := NUM_ENTRIES.
Definition loader_names : list string := table_entry_t.name table.
Definition loader_extensions : list string := table_entry_t.ext table.

Module mol.

(** [for (i = 0; i < NUM_ENTRIES; ++i) if (str_eq(ext, table.ext[i])) return table.mol_loader[i];] *)
Fixpoint loader_from_ext_loop (n : nat) (i : nat) (e : string) : option md_molecule_loader_i :=
  match n with
  | O => None
  | S n' =>
      if str_eq e (nth i (table_entry_t.ext table) "") then nth i (table_entry_t.mol_loader table) None
      else loader_from_ext_loop n' (S i) e
  end.

Definition loader_from_ext (e : string) : option md_molecule_loader_i :=
  loader_from_ext_loop NUM_ENTRIES 0 e.

Definition ptr_eqb (a : option md_molecule_loader_i) (b : md_molecule_loader_i) : bool :=
  match a with
  | Some a' => mol_loader_ptr_eqb a' b
  | None => false
  end.

Fixpoint loader_requires_dialogue_loop (n : nat) (i : nat) (l : md_molecule_loader_i) : bool :=
  match n with
  | O => false
  | S n' =>
      if ptr_eqb (nth i (table_entry_t.mol_loader table) None) l
      then negb (Z.land (nth i (table_entry_t.flags table) 0) FLAG_REQUIRES_DIALOGUE =? 0)
      else loader_requires_dialogue_loop n' (S i) l
  end.

Definition loader_requires_dialogue (loader : option md_molecule_loader_i) : bool :=
  match loader with
  | Some l => loader_requires_dialogue_loop NUM_ENTRIES 0 l
  | None => false
  end.

End mol.

(** ** The environment of the loader

    What the translation unit takes from the parser library, the operating
    system and the build: their sources are elsewhere, so they are fields
    of a class and every definition below is parametric in them. *)

Inductive md_lammps_atom_format_t : Type :=
| MD_LAMMPS_ATOM_FORMAT_UNKNOWN
| MD_LAMMPS_ATOM_FORMAT (n : nat).

Class Platform : Type := {
  (** [extract_ext(&ext, path)]: [None] when it returns false. *)
  extract_ext : string -> option string;
  md_lammps_atom_format_from_file : string -> md_lammps_atom_format_t;
  md_lammps_atom_format_strings : md_lammps_atom_format_t -> string;
  (** [sizeof(md_lammps_molecule_loader_arg_t)] and [sizeof(md_trajectory_i)] *)
  sizeof_lammps_arg : Z;
  sizeof_md_trajectory_i : Z;
  (** the build constant, in megabytes *)
  VIAMD_FRAME_CACHE_SIZE : Z;
  (** bytes of physical memory *)
  md_os_physical_ram : Z
}.

(** ** The allocator ([core/md_allocator.h])

    A bump allocator: [md_alloc] hands out a fresh address and records the
    block and what was copied into it; [md_free] drops the block. *)

Record block : Type := {
  blk_ptr : Z;
  blk_size : Z;
  blk_data : string
}.

Record md_allocator_i : Type := {
  next_ptr : Z;
  blocks : list block
}.

Definition md_alloc (a : md_allocator_i) (size : Z) (data : string) : Z * md_allocator_i :=
  (next_ptr a,
   {| next_ptr := next_ptr a + Z.max size 1;
      blocks := {| blk_ptr := next_ptr a; blk_size := size; blk_data := data |} :: blocks a |}).

Definition md_free (a : md_allocator_i) (ptr : Z) : md_allocator_i :=
  {| next_ptr := next_ptr a;
     blocks := filter (fun b => negb (blk_ptr b =? ptr)) (blocks a) |}.

(** ** Loader state ([loader.h]) *)

Definition LoaderStateFlag_None : Z := 0.
Definition LoaderStateFlag_RequiresDialogue : Z := Z.shiftl 1 0.

Module LoaderState.
Record t : Type := {
  mol_loader : option md_molecule_loader_i;
  traj_loader : option md_trajectory_loader_i;
  mol_loader_arg : option Z;
  flags : Z;
  data_size : Z;
  data_ptr : option Z
}.
End LoaderState.

(** [MEMSET(state, 0, sizeof(LoaderState))] *)
Definition LoaderState_zero : LoaderState.t := {|
  LoaderState.mol_loader := None;
  LoaderState.traj_loader := None;
  LoaderState.mol_loader_arg := None;
  LoaderState.flags := 0;
  LoaderState.data_size := 0;
  LoaderState.data_ptr := None
|}.

Section LoaderStateBuilder.
Context {P : Platform}.

Definition mol_loader_preload_check (state : LoaderState.t) (loader : mol_loader_t)
    (file_path : string) (alloc : md_allocator_i) : LoaderState.t * md_allocator_i :=
  match loader with
  | MOL_LOADER_LAMMPS =>
      let format := md_lammps_atom_format_from_file file_path in
      match format with
      | MD_LAMMPS_ATOM_FORMAT _ =>
          let format_str := md_lammps_atom_format_strings format in
          let '(p, alloc') := md_alloc alloc sizeof_lammps_arg format_str in
          ({| LoaderState.mol_loader := LoaderState.mol_loader state;
              LoaderState.traj_loader := LoaderState.traj_loader state;
              LoaderState.mol_loader_arg := Some p;
              LoaderState.flags := LoaderState.flags state;
              LoaderState.data_size := sizeof_lammps_arg;
              LoaderState.data_ptr := Some p |}, alloc')
      | MD_LAMMPS_ATOM_FORMAT_UNKNOWN =>
          ({| LoaderState.mol_loader := LoaderState.mol_loader state;
              LoaderState.traj_loader := LoaderState.traj_loader state;
              LoaderState.mol_loader_arg := LoaderState.mol_loader_arg state;
              LoaderState.flags := Z.lor (LoaderState.flags state) LoaderStateFlag_RequiresDialogue;
              LoaderState.data_size := LoaderState.data_size state;
              LoaderState.data_ptr := LoaderState.data_ptr state |}, alloc)
      end
  | _ => (state, alloc)
  end.

Definition traj_loader_preload_check (state : LoaderState.t) (loader : traj_loader_t)
    (file_path : string) (alloc : md_allocator_i) : LoaderState.t * md_allocator_i :=
  (state, alloc).

Definition set_mol_loader (state : LoaderState.t) (l : option md_molecule_loader_i) : LoaderState.t :=
  {| LoaderState.mol_loader := l;
     LoaderState.traj_loader := LoaderState.traj_loader state;
     LoaderState.mol_loader_arg := LoaderState.mol_loader_arg state;
     LoaderState.flags := LoaderState.flags state;
     LoaderState.data_size := LoaderState.data_size state;
     LoaderState.data_ptr := LoaderState.data_ptr state |}.

Definition set_traj_loader (state : LoaderState.t) (l : option md_trajectory_loader_i) : LoaderState.t :=
  {| LoaderState.mol_loader := LoaderState.mol_loader state;
     LoaderState.traj_loader := l;
     LoaderState.mol_loader_arg := LoaderState.mol_loader_arg state;
     LoaderState.flags := LoaderState.flags state;
     LoaderState.data_size := LoaderState.data_size state;
     LoaderState.data_ptr := LoaderState.data_ptr state |}.

Definition is_mol_loader (l : mol_loader_t) : bool :=
  match l with MOL_LOADER_UNKNOWN => false | _ => true end.

Definition is_traj_loader (l : traj_loader_t) : bool :=
  match l with TRAJ_LOADER_UNKNOWN => false | _ => true end.

(** Returns the result, the state written through [state] and the
    allocator after the call. *)
Definition init_loader_state (file_path : string) (alloc : md_allocator_i)
    : bool * LoaderState.t * md_allocator_i :=
  let state := LoaderState_zero in
  match extract_ext file_path with
  | Some ext =>
      let mol_loader := mol_loader_from_ext ext in
      let '(state, alloc) :=
        if is_mol_loader mol_loader
        then mol_loader_preload_check (set_mol_loader state (mol_loader_api mol_loader))
               mol_loader file_path alloc
        else (state, alloc) in
      let traj_loader := traj_loader_from_ext ext in
      let '(state, alloc) :=
        if is_traj_loader traj_loader
        then traj_loader_preload_check (set_traj_loader state (traj_loader_api traj_loader))
               traj_loader file_path alloc
        else (state, alloc) in
      (is_mol_loader mol_loader || is_traj_loader traj_loader, state, alloc)
  | None => (false, state, alloc)
  end.

Definition free_loader_state (state : LoaderState.t) (alloc : md_allocator_i)
    : LoaderState.t * md_allocator_i :=
  if negb (LoaderState.data_size state =? 0) then
    ({| LoaderState.mol_loader := LoaderState.mol_loader state;
        LoaderState.traj_loader := LoaderState.traj_loader state;
        LoaderState.mol_loader_arg := LoaderState.mol_loader_arg state;
        LoaderState.flags := LoaderState.flags state;
        LoaderState.data_size := 0;
        LoaderState.data_ptr := None |},
     match LoaderState.data_ptr state with
     | Some p => md_free alloc p
     | None => alloc
     end)
  else (state, alloc).

End LoaderStateBuilder.

(** ** Numbers and geometry

    Coordinates are 32-bit floats.  Their arithmetic and the routines of
    the utility library over them are fields of a class: the facade only
    moves the values around and combines them with these operations. *)

Class Numerics : Type := {
  float : Type;
  f_zero : float;
  f_one : float;
  f_half : float;
  fadd : float -> float -> float;
  fsub : float -> float -> float;
  fmul : float -> float -> float;
  fneg : float -> float;
  mat3_t : Type
}.

Section Geometry.
Context {N : Numerics}.

Record vec3_t : Type := { vx : float; vy : float; vz : float }.

Definition vec3_set (a b c : float) : vec3_t := {| vx := a; vy := b; vz := c |}.
Definition vec3_set1 (a : float) : vec3_t := vec3_set a a a.
(** [a - b], [a * s], [-a] on [vec3_t] *)
Definition vec3_sub (a b : vec3_t) : vec3_t :=
  vec3_set (fsub (vx a) (vx b)) (fsub (vy a) (vy b)) (fsub (vz a) (vz b)).
Definition vec3_mul_f (a : vec3_t) (s : float) : vec3_t :=
  vec3_set (fmul (vx a) s) (fmul (vy a) s) (fmul (vz a) s).
Definition vec3_neg (a : vec3_t) : vec3_t :=
  vec3_set (fneg (vx a)) (fneg (vy a)) (fneg (vz a)).

Record md_unit_cell_t : Type := {
  basis : mat3_t;
  cell_flags : Z
}.

Record md_trajectory_frame_header_t : Type := {
  num_atoms : Z;
  index : Z;
  timestamp : float;
  unit_cell : md_unit_cell_t
}.

Record md_frame_data_t : Type := {
  header : md_trajectory_frame_header_t;
  x : list float;
  y : list float;
  z : list float
}.

(** [md_index_data_t]: offsets and a flat index array. *)
Record md_index_data_t : Type := {
  offsets : list Z;
  indices : list Z
}.

Definition md_index_data_count (d : md_index_data_t) : Z :=
  Z.max 0 (Z.of_nat (List.length (offsets d)) - 1).

Record md_molecule_t : Type := {
  atom_count : Z;
  atom_mass : list float;
  structures : md_index_data_t
}.

(** [vec3_batch_translate_inplace(x, y, z, count, t)]: [x[i] += t.x] for
    [i < count], likewise [y] and [z]. *)
Definition translate_inplace (l : list float) (count : Z) (t : float) : list float :=
  map (fun v => fadd v t) (firstn (Z.to_nat count) l) ++ skipn (Z.to_nat count) l.

Definition vec3_batch_translate_inplace (fd : md_frame_data_t) (count : Z) (t : vec3_t)
    : md_frame_data_t :=
  {| header := header fd;
     x := translate_inplace (x fd) count (vx t);
     y := translate_inplace (y fd) count (vy t);
     z := translate_inplace (z fd) count (vz t) |}.

End Geometry.

(** The routines of [md_util.h] and [core/md_vec_math.h] the facade calls. *)
Class MdUtil {N : Numerics} : Type := {
  mat3_mul_vec3 : mat3_t -> vec3_t -> vec3_t;
  vec3_deperiodize : vec3_t -> vec3_t -> vec3_t -> vec3_t;
  md_util_compute_com_ortho :
    list float -> list float -> list float -> list float -> list Z -> Z -> vec3_t -> vec3_t;
  md_util_com_compute :
    list float -> list float -> list float -> list float -> list Z -> Z -> vec3_t;
  md_util_deperiodize_system :
    md_frame_data_t -> list float -> Z -> md_unit_cell_t -> list Z -> list Z -> Z -> md_frame_data_t
}.

(** ** Bit fields ([core/md_bitfield.h])

    Modelled from the spec: the bit field library is not part of the
    sources; the recenter mask is a bit field over the atoms of the
    molecule, here one [bool] per atom. *)

Definition md_bitfield_t : Type := list bool.

Definition md_bitfield_init : md_bitfield_t := [].
Definition md_bitfield_clear (bf : md_bitfield_t) : md_bitfield_t := [].
Definition md_bitfield_copy (dst src : md_bitfield_t) : md_bitfield_t := src.

Definition md_bitfield_popcount (bf : md_bitfield_t) : Z :=
  Z.of_nat (List.length (filter (fun b => b) bf)).

Definition md_bitfield_empty (bf : md_bitfield_t) : bool :=
  forallb negb bf.

Fixpoint extract_indices_from (i : Z) (bf : md_bitfield_t) : list Z :=
  match bf with
  | [] => []
  | b :: bf' =>
      if b then i :: extract_indices_from (i + 1) bf'
      else extract_indices_from (i + 1) bf'
  end.

(** [md_bitfield_extract_indices(indices, cap, bf)]: the set bits in
    increasing order, at most [cap] of them. *)
Definition md_bitfield_extract_indices (cap : Z) (bf : md_bitfield_t) : list Z :=
  firstn (Z.to_nat cap) (extract_indices_from 0 bf).

(** ** Backend trajectories ([md_trajectory.h])

    A backend trajectory as the facade uses it: its atom and frame counts,
    the blob of a frame and the decoding of a blob.  [traj_decoded] is the
    history of the frames it was asked to decode, most recent first. *)

Section Trajectory.
Context {N : Numerics}.

Record md_trajectory_i : Type := {
  traj_inst : Z;
  md_trajectory_num_atoms : Z;
  md_trajectory_num_frames : Z;
  md_trajectory_fetch_frame_data : Z -> list Z;
  md_trajectory_decode_frame_data : list Z -> option md_frame_data_t;
  traj_decoded : list Z
}.

Definition note_decode (t : md_trajectory_i) (idx : Z) : md_trajectory_i :=
  {| traj_inst := traj_inst t;
     md_trajectory_num_atoms := md_trajectory_num_atoms t;
     md_trajectory_num_frames := md_trajectory_num_frames t;
     md_trajectory_fetch_frame_data := md_trajectory_fetch_frame_data t;
     md_trajectory_decode_frame_data := md_trajectory_decode_frame_data t;
     traj_decoded := idx :: traj_decoded t |}.

(** What a backend hands back for frame [idx] when asked directly. *)
Definition backend_load_frame (t : md_trajectory_i) (idx : Z) : option md_frame_data_t :=
  md_trajectory_decode_frame_data t (md_trajectory_fetch_frame_data t idx).

(** ** Frame cache ([md_frame_cache.h])

    Modelled from the spec: the cache module is not part of the sources.
    A fixed number of slots decided at initialization; a slot is free,
    reserved for a frame index, or populated with the frame of an index.
    The victim of a reservation is chosen by a policy the spec leaves
    open, so it is a parameter. *)

Inductive cache_slot : Type :=
| SlotFree
| SlotReserved (idx : Z)
| SlotPopulated (idx : Z) (fd : md_frame_data_t).

Record md_frame_cache_t : Type := {
  slots : list cache_slot
}.

Definition md_frame_cache_init (num_cache_frames : Z) : md_frame_cache_t :=
  {| slots := repeat SlotFree (Z.to_nat num_cache_frames) |}.

Definition md_frame_cache_clear (c : md_frame_cache_t) : md_frame_cache_t :=
  {| slots := map (fun _ => SlotFree) (slots c) |}.

(** [md_frame_cache_free]: the slots are given back. *)
Definition md_frame_cache_free (c : md_frame_cache_t) : md_frame_cache_t :=
  {| slots := [] |}.

Definition slot_populated (s : cache_slot) : bool :=
  match s with SlotPopulated _ _ => true | _ => false end.

Definition md_frame_cache_num_frames (c : md_frame_cache_t) : Z :=
  Z.of_nat (List.length (filter slot_populated (slots c))).

Definition slot_has (idx : Z) (s : cache_slot) : bool :=
  match s with SlotPopulated i _ => i =? idx | _ => false end.

Fixpoint find_slot (idx : Z) (l : list cache_slot) (i : nat) : option (nat * md_frame_data_t) :=
  match l with
  | [] => None
  | SlotPopulated j fd :: l' => if j =? idx then Some (i, fd) else find_slot idx l' (S i)
  | _ :: l' => find_slot idx l' (S i)
  end.

Fixpoint set_slot (l : list cache_slot) (i : nat) (s : cache_slot) : list cache_slot :=
  match l, i with
  | [], _ => []
  | _ :: l', O => s :: l'
  | a :: l', S i' => a :: set_slot l' i' s
  end.

End Trajectory.

(** The eviction policy of the cache, the creation of backends by the
    loader interfaces of the parser library, and what a backend leaves in
    the header and coordinate buffers it was given when its decode of a
    frame fails (the third argument is the slot as it was before it was
    reserved for the frame). *)
Class Backends {N : Numerics} : Type := {
  cache_victim : md_frame_cache_t -> Z -> nat;
  traj_loader_create : md_trajectory_loader_i -> string -> option md_trajectory_i;
  decode_failure_leaves : md_trajectory_i -> Z -> cache_slot -> md_frame_data_t
}.

(** ** The table of open trajectories *)

(** An array element replaced. *)
Fixpoint list_set {A : Type} (l : list A) (i : nat) (v : A) : list A :=
  match l, i with
  | [], _ => []
  | _ :: l', O => v :: l'
  | a :: l', S i' => a :: list_set l' i' v
  end.

(** [uint64_t] and [int64_t] conversions. *)
Definition u64 (v : Z) : Z := v mod 2 ^ 64.
Definition i64 (v : Z) : Z := (v + 2 ^ 63) mod 2 ^ 64 - 2 ^ 63.

Definition MIN (a b : Z) : Z := if a <? b then a else b.
Definition MAX (a b : Z) : Z := if a >? b then a else b.
Definition CLAMP (v lo hi : Z) : Z := MIN (MAX v lo) hi.
Definition MEGABYTES (v : Z) : Z := v * 1024 * 1024.

Section Registry.
Context {N : Numerics}.

(** The [alloc] member is the one allocator of [globals] below. *)
Record LoadedTrajectory : Type := {
  key : Z;
  mol : md_molecule_t;
  loader : md_trajectory_loader_i;
  traj : md_trajectory_i;
  cache : md_frame_cache_t;
  recenter_target : md_bitfield_t;
  deperiodize : bool
}.

Definition set_cache (inst : LoadedTrajectory) (c : md_frame_cache_t) : LoadedTrajectory :=
  {| key := key inst; mol := mol inst; loader := loader inst; traj := traj inst;
     cache := c; recenter_target := recenter_target inst; deperiodize := deperiodize inst |}.

Definition set_traj (inst : LoadedTrajectory) (t : md_trajectory_i) : LoadedTrajectory :=
  {| key := key inst; mol := mol inst; loader := loader inst; traj := t;
     cache := cache inst; recenter_target := recenter_target inst; deperiodize := deperiodize inst |}.

Definition set_recenter (inst : LoadedTrajectory) (bf : md_bitfield_t) : LoadedTrajectory :=
  {| key := key inst; mol := mol inst; loader := loader inst; traj := traj inst;
     cache := cache inst; recenter_target := bf; deperiodize := deperiodize inst |}.

Definition set_deperiodize_flag (inst : LoadedTrajectory) (b : bool) : LoadedTrajectory :=
  {| key := key inst; mol := mol inst; loader := loader inst; traj := traj inst;
     cache := cache inst; recenter_target := recenter_target inst; deperiodize := b |}.


(** The translation unit's global state.  [loaded_trajectories] is the
    array of open trajectories up to [num_loaded_trajectories], which is
    the length of the list; [spare_slots] is what the array holds from
    there on, in the slots an entry was once written to:
    [remove_loaded_trajectory] lowers the counter and leaves the contents
    of the last slot where they are.  [handles] are the trajectory objects
    [open_file] handed out and [close] has not zeroed since, each with the
    slot of the array its [inst] member points to.  Then the allocator,
    the backends destroyed so far and the logged errors. *)
Record globals : Type := {
  loaded_trajectories : list LoadedTrajectory;
  heap : md_allocator_i;
  destroyed : list md_trajectory_i;
  errors : list string;
  spare_slots : list LoadedTrajectory;
  handles : list (Z * nat)
}.

Definition num_loaded_trajectories (g : globals) : Z :=
  Z.of_nat (List.length (loaded_trajectories g)).

(** [ARRAY_SIZE(loaded_trajectories)] *)
Definition ARRAY_SIZE_loaded_trajectories : Z := 8.

Definition set_loaded (g : globals) (l : list LoadedTrajectory) : globals :=
  {| loaded_trajectories := l; heap := heap g; destroyed := destroyed g; errors := errors g;
     spare_slots := spare_slots g; handles := handles g |}.

Definition set_heap (g : globals) (a : md_allocator_i) : globals :=
  {| loaded_trajectories := loaded_trajectories g; heap := a; destroyed := destroyed g;
     errors := errors g; spare_slots := spare_slots g; handles := handles g |}.

Definition set_spare (g : globals) (l : list LoadedTrajectory) : globals :=
  {| loaded_trajectories := loaded_trajectories g; heap := heap g; destroyed := destroyed g;
     errors := errors g; spare_slots := l; handles := handles g |}.

Definition set_handles (g : globals) (hs : list (Z * nat)) : globals :=
  {| loaded_trajectories := loaded_trajectories g; heap := heap g; destroyed := destroyed g;
     errors := errors g; spare_slots := spare_slots g; handles := hs |}.

(** [loader->destroy(traj)] *)
Definition destroy (g : globals) (t : md_trajectory_i) : globals :=
  {| loaded_trajectories := loaded_trajectories g; heap := heap g;
     destroyed := t :: destroyed g; errors := errors g;
     spare_slots := spare_slots g; handles := handles g |}.

Definition MD_LOG_ERROR (g : globals) (msg : string) : globals :=
  {| loaded_trajectories := loaded_trajectories g; heap := heap g;
     destroyed := destroyed g; errors := msg :: errors g;
     spare_slots := spare_slots g; handles := handles g |}.

Fixpoint find_entry (l : list LoadedTrajectory) (k : Z) : option LoadedTrajectory :=
  match l with
  | [] => None
  | e :: l' => if key e =? k then Some e else find_entry l' k
  end.

Definition find_loaded_trajectory (g : globals) (k : Z) : option LoadedTrajectory :=
  find_entry (loaded_trajectories g) k.

(** The index [i] of the slot whose address [find_loaded_trajectory]
    returns. *)
Fixpoint find_index (l : list LoadedTrajectory) (k : Z) : option nat :=
  match l with
  | [] => None
  | e :: l' => if key e =? k then Some O else option_map S (find_index l' k)
  end.

(** Writing through the pointer [find_loaded_trajectory] returns. *)
Fixpoint update_entry (l : list LoadedTrajectory) (k : Z) (e' : LoadedTrajectory)
    : list LoadedTrajectory :=
  match l with
  | [] => []
  | e :: l' => if key e =? k then e' :: l' else e :: update_entry l' k e'
  end.

(** [&loaded_trajectories[num_loaded_trajectories++]], cleared and given
    the key: the value is the index of the slot the returned pointer
    points to.  What the slot held from an earlier entry is overwritten. *)
Definition take_next_slot (g : globals) (init : LoadedTrajectory) : outcome globals nat :=
  Done (List.length (loaded_trajectories g))
    (set_spare (set_loaded g (loaded_trajectories g ++ [init])) (tl (spare_slots g))).

(** [alloc_loaded_trajectory(key)]; [init] carries the key and the members
    [open_file] assigns right after. *)
Definition alloc_loaded_trajectory (g : globals) (init : LoadedTrajectory)
    : outcome globals nat :=
  bind (ASSERT (match find_loaded_trajectory g (key init) with None => true | Some _ => false end) g)
    (fun _ g =>
  bind (ASSERT (num_loaded_trajectories g <? ARRAY_SIZE_loaded_trajectories) g) (fun _ g =>
  take_next_slot g init)).

(** The same with [ASSERT] expanding to nothing: with the array full, the
    entry is written past its end. *)
Definition alloc_loaded_trajectory_unchecked (g : globals) (init : LoadedTrajectory)
    : outcome globals nat :=
  if num_loaded_trajectories g <? ARRAY_SIZE_loaded_trajectories
  then take_next_slot g init
  else Abort OutOfBounds g.

(** Swap back and pop: entry [i] takes the last entry, the last is dropped. *)
Fixpoint swap_back_and_pop (l : list LoadedTrajectory) (k : Z) : list LoadedTrajectory :=
  match l with
  | [] => []
  | e :: l' =>
      if key e =? k then
        match rev l' with
        | [] => []
        | lst :: r => lst :: rev r
        end
      else e :: swap_back_and_pop l' k
  end.

(** What the last slot of the array holds once entry [k] is removed: the
    entry that was last, which is the removed one, its cache freed, when
    that was the last. *)
Definition left_behind (l : list LoadedTrajectory) (k : Z) : list LoadedTrajectory :=
  match find_entry l k with
  | Some e =>
      match rev (update_entry l k (set_cache e (md_frame_cache_free (cache e)))) with
      | lst :: _ => [lst]
      | [] => []
      end
  | None => []
  end.

Definition remove_loaded_trajectory (g : globals) (k : Z) : outcome globals unit :=
  match find_loaded_trajectory g k with
  | Some e =>
      Done tt
        (set_spare
           (set_loaded (destroy g (traj e)) (swap_back_and_pop (loaded_trajectories g) k))
           (left_behind (loaded_trajectories g) k ++ spare_slots g))
  | None => Abort AssertionFailed g
  end.

(** The slot a trajectory object's [inst] member points to; [None] for an
    address [open_file] did not hand out or [close] has zeroed. *)
Fixpoint handle_inst (hs : list (Z * nat)) (h : Z) : option nat :=
  match hs with
  | [] => None
  | (a, k) :: hs' => if a =? h then Some k else handle_inst hs' h
  end.

(** [memset(traj, 0, sizeof(md_trajectory_i))] *)
Definition zero_handle (hs : list (Z * nat)) (h : Z) : list (Z * nat) :=
  filter (fun p => negb (fst p =? h)) hs.

(** Slot [k] of the array, whether below the counter or not. *)
Definition slot_at (g : globals) (k : nat) : option LoadedTrajectory :=
  nth_error (loaded_trajectories g ++ spare_slots g) k.

Definition set_slot_at (g : globals) (k : nat) (e : LoadedTrajectory) : globals :=
  if (k <? List.length (loaded_trajectories g))%nat
  then set_loaded g (list_set (loaded_trajectories g) k e)
  else set_spare g (list_set (spare_slots g) (k - List.length (loaded_trajectories g)) e).

End Registry.

(** ** The trajectory facade (namespace [load::traj]) *)

Module traj.

(** [for (i = 0; i < NUM_ENTRIES; ++i) if (str_eq(ext, table.ext[i])) return table.traj_loader[i];] *)
Fixpoint loader_from_ext_loop (n : nat) (i : nat) (e : string) : option md_trajectory_loader_i :=
  match n with
  | O => None
  | S n' =>
      if str_eq e (nth i (table_entry_t.ext table) "") then nth i (table_entry_t.traj_loader table) None
      else loader_from_ext_loop n' (S i) e
  end.

Definition loader_from_ext (e : string) : option md_trajectory_loader_i :=
  loader_from_ext_loop NUM_ENTRIES 0 e.

Section Facade.
Context {P : Platform} {N : Numerics} {U : MdUtil} {B : Backends}.

(** *** The cache protocol *)

Inductive find_result : Type :=
| InCache (i : nat) (fd : md_frame_data_t)
| Reserved (i : nat) (c : md_frame_cache_t).

(** [md_frame_cache_find_or_reserve]: [None] when there is no slot to
    reserve. *)
Definition md_frame_cache_find_or_reserve (c : md_frame_cache_t) (idx : Z) : option find_result :=
  match find_slot idx (slots c) 0 with
  | Some (i, fd) => Some (InCache i fd)
  | None =>
      let v := cache_victim c idx in
      if (v <? List.length (slots c))%nat
      then Some (Reserved v {| slots := set_slot (slots c) v (SlotReserved idx) |})
      else None
  end.

(** What the writer leaves in the reserved slot through its [frame_data]
    pointer.  The slot was given the frame index when it was reserved, so
    from here on a lookup of [idx] finds it with these contents. *)
Definition slot_store (c : md_frame_cache_t) (i : nat) (idx : Z) (fd : md_frame_data_t)
    : md_frame_cache_t :=
  {| slots := set_slot (slots c) i (SlotPopulated idx fd) |}.

(** [md_frame_cache_frame_lock_release]: the lock of the slot is given
    back.  The call is the same whether the decode succeeded or not, and
    it leaves the slot and its frame index as they are. *)
Definition md_frame_cache_frame_lock_release (c : md_frame_cache_t) (i : nat) : md_frame_cache_t :=
  c.

(** *** The transform after a backend decode *)

Definition have_cell (fd : md_frame_data_t) : bool :=
  negb (cell_flags (unit_cell (header fd)) =? 0).

Definition box_ext (fd : md_frame_data_t) : vec3_t :=
  mat3_mul_vec3 (basis (unit_cell (header fd))) (vec3_set1 f_one).

(** The center of mass of the masked atoms; [None] when the single
    masked index is outside the arrays. *)
Definition recenter_com (m : md_molecule_t) (bf : md_bitfield_t) (fd : md_frame_data_t)
    : option vec3_t :=
  let count := md_bitfield_popcount bf in
  let indices := md_bitfield_extract_indices count bf in
  if count =? 1 then
    let i := Z.to_nat (nth 0 indices 0) in
    match nth_error (x fd) i, nth_error (y fd) i, nth_error (z fd) i with
    | Some xi, Some yi, Some zi => Some (vec3_set xi yi zi)
    | _, _, _ => None
    end
  else
    Some (if have_cell fd
          then vec3_deperiodize
                 (md_util_compute_com_ortho (x fd) (y fd) (z fd) (atom_mass m) indices count
                    (box_ext fd))
                 (vec3_mul_f (box_ext fd) f_half) (box_ext fd)
          else md_util_com_compute (x fd) (y fd) (z fd) (atom_mass m) indices count).

Definition recenter_trans (fd : md_frame_data_t) (com : vec3_t) : vec3_t :=
  if have_cell fd then vec3_sub (vec3_mul_f (box_ext fd) f_half) com else vec3_neg com.

Definition recenter (m : md_molecule_t) (bf : md_bitfield_t) (fd : md_frame_data_t)
    : option md_frame_data_t :=
  if negb (md_bitfield_empty bf) then
    if 0 <? md_bitfield_popcount bf then
      match recenter_com m bf fd with
      | Some com =>
          Some (vec3_batch_translate_inplace fd (num_atoms (header fd)) (recenter_trans fd com))
      | None => None
      end
    else Some fd
  else Some fd.

Definition deperiodize_step (m : md_molecule_t) (flag : bool) (fd : md_frame_data_t)
    : md_frame_data_t :=
  if flag && have_cell fd then
    md_util_deperiodize_system fd (atom_mass m) (atom_count m) (unit_cell (header fd))
      (offsets (structures m)) (indices (structures m)) (md_index_data_count (structures m))
  else fd.

Definition post_decode (inst : LoadedTrajectory) (fd : md_frame_data_t) : option md_frame_data_t :=
  match recenter (mol inst) (recenter_target inst) fd with
  | Some fd' => Some (deperiodize_step (mol inst) (deperiodize inst) fd')
  | None => None
  end.

(** The copies into [header], [out_x], [out_y], [out_z] (all given). *)
Definition copy_out (fd : md_frame_data_t) : md_frame_data_t :=
  let n := Z.to_nat (num_atoms (header fd)) in
  {| header := header fd; x := firstn n (x fd); y := firstn n (y fd); z := firstn n (z fd) |}.

Definition fetch_frame_data (idx : Z) : Z * Z := (idx, 8).

(** [decode_frame_data] from the cache lookup on: the value is [None]
    when the function returns false, and the copied frame otherwise.  On a
    miss the backend decodes into the buffers of the reserved slot; when
    its decode fails nothing is copied out, and the slot keeps the frame
    index with whatever the backend left in the buffers. *)
Definition decode_through_cache (inst : LoadedTrajectory) (idx : Z)
    : outcome LoadedTrajectory (option md_frame_data_t) :=
  match md_frame_cache_find_or_reserve (cache inst) idx with
  | None => Abort OutOfBounds inst
  | Some (InCache i fd) => Done (Some (copy_out fd)) inst
  | Some (Reserved i c) =>
      let before := nth i (slots (cache inst)) SlotFree in
      let inst := set_traj (set_cache inst c) (note_decode (traj inst) idx) in
      match backend_load_frame (traj inst) idx with
      | Some fd =>
          match post_decode inst fd with
          | Some fd' =>
              Done (Some (copy_out fd'))
                (set_cache inst (md_frame_cache_frame_lock_release (slot_store c i idx fd') i))
          | None => Abort OutOfBounds inst
          end
      | None =>
          Done None
            (set_cache inst
               (md_frame_cache_frame_lock_release
                  (slot_store c i idx (decode_failure_leaves (traj inst) idx before)) i))
      end
  end.

(** [decode_frame_data(inst, data_ptr, data_size, header, out_x, out_y, out_z)]:
    [idx] is the integer read from [data_ptr]. *)
Definition decode_frame_data (inst : LoadedTrajectory) (idx : Z) (data_size : Z)
    : outcome LoadedTrajectory (option md_frame_data_t) :=
  bind (ASSERT (data_size =? 8) inst) (fun _ inst =>
  bind (ASSERT ((0 <=? idx) && (idx <? md_trajectory_num_frames (traj inst))) inst) (fun _ inst =>
  decode_through_cache inst idx)).

Definition load_frame (inst : LoadedTrajectory) (idx : Z)
    : outcome LoadedTrajectory (option md_frame_data_t) :=
  decode_frame_data inst idx 8.



(** A call through the function pointers of the trajectory object [h]:
    the callee receives [h->inst], the address of the slot of the array
    the trajectory was opened in, and works on what that slot holds now.
    A zeroed object has no function to call.  Entries are copied by
    value; memory that a moved entry and the copy it left behind share
    behind their pointers is not modelled. *)
Definition with_entry {A} (g : globals) (h : Z)
    (f : LoadedTrajectory -> outcome LoadedTrajectory A) : outcome globals A :=
  match handle_inst (handles g) h with
  | Some k =>
      match slot_at g k with
      | Some e =>
          match f e with
          | Done a e' => Done a (set_slot_at g k e')
          | Abort ft e' => Abort ft (set_slot_at g k e')
          end
      | None => Abort NullPointer g
      end
  | None => Abort NullPointer g
  end.

Definition traj_load_frame (g : globals) (h : Z) (idx : Z)
    : outcome globals (option md_frame_data_t) :=
  with_entry g h (fun e => load_frame e idx).

(** The number of frames the cache is initialized with; [None] when the
    division is by zero. *)
Definition num_cache_frames_for (internal_traj : md_trajectory_i) (m : md_molecule_t) : option Z :=
  let num_traj_frames := u64 (md_trajectory_num_frames internal_traj) in
  let frame_cache_size :=
    u64 (CLAMP (MEGABYTES VIAMD_FRAME_CACHE_SIZE) (MEGABYTES 4) (md_os_physical_ram / 4)) in
  let approx_frame_size := u64 (u64 (atom_count m) * 3 * 4) in
  if approx_frame_size =? 0 then None
  else
    let max_num_cache_frames := frame_cache_size / approx_frame_size in
    Some (i64 (MIN num_traj_frames max_num_cache_frames)).

(** [if (!loader) { if (extract_ext(&ext, filename)) loader = loader_from_ext(ext); }] *)
Definition resolve_loader (filename : string) (loader : option md_trajectory_loader_i)
    : option md_trajectory_loader_i :=
  match loader with
  | Some l => Some l
  | None =>
      match extract_ext filename with
      | Some e => loader_from_ext e
      | None => None
      end
  end.

(** [open_file(filename, loader, mol, alloc)]: the value is the handle, or
    [None] for a null return.  [alloc_entry] is [alloc_loaded_trajectory]
    as the build compiles it. *)
Definition open_file_with (alloc_entry : globals -> LoadedTrajectory -> outcome globals nat)
    (g : globals) (filename : string) (loader : option md_trajectory_loader_i)
    (m : md_molecule_t) : outcome globals (option Z) :=
  match resolve_loader filename loader with
  | None => Done None (MD_LOG_ERROR g "Unsupported file extension")
  | Some l =>
      match traj_loader_create l filename with
      | None => Done None g
      | Some internal_traj =>
          if negb (md_trajectory_num_atoms internal_traj =? atom_count m) then
            Done None
              (destroy (MD_LOG_ERROR g "Trajectory is not compatible with the loaded molecule.")
                 internal_traj)
          else
            let '(h, heap') := md_alloc (heap g) sizeof_md_trajectory_i "" in
            let g := set_heap g heap' in
            let inst := {| key := h; mol := m; loader := l; traj := internal_traj;
                           cache := {| slots := [] |}; recenter_target := [];
                           deperiodize := false |} in
            bind (alloc_entry g inst) (fun k g =>
            match num_cache_frames_for internal_traj m with
            | None => Abort DivisionByZero g
            | Some num_cache_frames =>
                let inst := set_recenter (set_cache inst (md_frame_cache_init num_cache_frames))
                              md_bitfield_init in
                Done (Some h)
                  (set_handles (set_loaded g (list_set (loaded_trajectories g) k inst))
                     ((h, k) :: handles g))
            end)
      end
  end.

Definition open_file (g : globals) (filename : string) (loader : option md_trajectory_loader_i)
    (m : md_molecule_t) : outcome globals (option Z) :=
  open_file_with alloc_loaded_trajectory g filename loader m.

Definition open_file_unchecked (g : globals) (filename : string)
    (loader : option md_trajectory_loader_i) (m : md_molecule_t) : outcome globals (option Z) :=
  open_file_with alloc_loaded_trajectory_unchecked g filename loader m.

Definition close (g : globals) (h : Z) : outcome globals bool :=
  match find_loaded_trajectory g h with
  | Some e =>
      bind (remove_loaded_trajectory g (key e)) (fun _ g =>
      Done true (set_handles g (zero_handle (handles g) h)))
  | None =>
      Abort AssertionFailed
        (MD_LOG_ERROR g "Attempting to free trajectory which was not loaded with loader")
  end.

Definition set_recenter_target (g : globals) (h : Z) (atom_mask : option md_bitfield_t)
    : bool * globals :=
  match find_loaded_trajectory g h with
  | Some e =>
      let bf :=
        match atom_mask with
        | Some mask => md_bitfield_copy (recenter_target e) mask
        | None => md_bitfield_clear (recenter_target e)
        end in
      (true, set_loaded g (update_entry (loaded_trajectories g) h (set_recenter e bf)))
  | None => (false, MD_LOG_ERROR g "Supplied trajectory was not loaded with loader")
  end.

Definition set_deperiodize (g : globals) (h : Z) (b : bool) : bool * globals :=
  match find_loaded_trajectory g h with
  | Some e =>
      (true, set_loaded g (update_entry (loaded_trajectories g) h (set_deperiodize_flag e b)))
  | None => (false, MD_LOG_ERROR g "Supplied trajectory was not loaded with loader")
  end.

Definition clear_cache (g : globals) (h : Z) : bool * globals :=
  match find_loaded_trajectory g h with
  | Some e =>
      (true, set_loaded g (update_entry (loaded_trajectories g) h
                             (set_cache e (md_frame_cache_clear (cache e)))))
  | None => (false, MD_LOG_ERROR g "Supplied trajectory was not loaded with loader")
  end.

Definition num_cache_frames (g : globals) (h : Z) : Z * globals :=
  match find_loaded_trajectory g h with
  | Some e => (md_frame_cache_num_frames (cache e), g)
  | None => (0, MD_LOG_ERROR g "Supplied trajectory was not loaded with loader")
  end.

End Facade.
End traj.

(** ** What the specification says, in its own terms *)

(** The extension tokens of the supported formats. *)
Definition spec_mol_extensions : list string :=
  ["pdb"; "gro"; "xyz"; "xmol"; "arc"; "cif"; "data"].
Definition spec_traj_extensions : list string :=
  ["pdb"; "xtc"; "trr"; "xyz"; "xmol"; "arc"].

Definition registered (exts : list string) (e : string) : Prop :=
  exists tok, In tok exts /\ str_eq_ignore_case e tok = true.

(** [clamp(v, lo, hi)] and the capacity of the frame cache. *)
Definition spec_clamp (v lo hi : Z) : Z := Z.min (Z.max v lo) hi.

Definition spec_available_bytes (configured_size_bytes physical_ram : Z) : Z :=
  spec_clamp configured_size_bytes (4 * 1024 * 1024) (physical_ram / 4).

Definition spec_cache_capacity (num_frames atom_count configured_size_bytes physical_ram : Z) : Z :=
  Z.min num_frames
    (spec_available_bytes configured_size_bytes physical_ram / (atom_count * 3 * 4)).

Section Consistency.
Context {P : Platform} {N : Numerics} {U : MdUtil} {B : Backends}.



(** What a decode gives when no recenter mask is in force: the backend's
    frame, deperiodized when the flag asks for it. *)
Definition plain_result (inst : LoadedTrajectory) (idx : Z) : option md_frame_data_t :=
  option_map (fun fd => traj.copy_out (traj.deperiodize_step (mol inst) (deperiodize inst) fd))
    (backend_load_frame (traj inst) idx).

(** The cache holds no frame that was decoded under a recenter mask or
    under another deperiodize flag. *)
Definition slot_plain (inst : LoadedTrajectory) (s : cache_slot) : Prop :=
  match s with
  | SlotPopulated i fd =>
      option_map (traj.deperiodize_step (mol inst) (deperiodize inst)) (backend_load_frame (traj inst) i)
      = Some fd
  | _ => True
  end.

Definition cache_plain (inst : LoadedTrajectory) : Prop :=
  Forall (slot_plain inst) (slots (cache inst)).

(** Two handles on the same backend trajectory. *)
Definition same_backend (a b : md_trajectory_i) : Prop :=
  md_trajectory_num_frames a = md_trajectory_num_frames b
  /\ md_trajectory_fetch_frame_data a = md_trajectory_fetch_frame_data b
  /\ md_trajectory_decode_frame_data a = md_trajectory_decode_frame_data b.

(** The eviction policy names a slot of the cache whenever there is one. *)
Definition policy_ok : Prop :=
  forall c idx, (0 < List.length (slots c))%nat ->
                (cache_victim c idx < List.length (slots c))%nat.

(** The entry of the handle [h] is where it was opened: the [inst] member
    of [h] points to the slot in which [find_loaded_trajectory] finds the
    key [h].  This holds from [open_file] until a [close] of another
    handle moves the entry. *)
Definition handle_in_place (g : globals) (h : Z) : Prop :=
  exists k, handle_inst (handles g) h = Some k
            /\ find_index (loaded_trajectories g) h = Some k.

(** Frames loaded one after the other through the handle [h]; the run
    ends at the first abort. *)
Fixpoint handle_load_frames (g : globals) (h : Z) (idxs : list Z)
    : list (option md_frame_data_t) :=
  match idxs with
  | [] => []
  | idx :: rest =>
      match traj.traj_load_frame g h idx with
      | Done r g' => r :: handle_load_frames g' h rest
      | Abort _ _ => []
      end
  end.

(** The backend decodes every one of the frames. *)
Definition all_decodable (t : md_trajectory_i) (idxs : list Z) : Prop :=
  Forall (fun idx => backend_load_frame t idx <> None) idxs.

End Consistency.

(** ** A concrete environment

    Exact rationals for the coordinates, a two-atom backend with three
    frames of which the last does not decode and leaves the buffers it was
    given untouched, and a direct-mapped cache. *)

Module Examples.

Import QArith_base.
Local Open Scope Z_scope.

Definition q (n : Z) : Q := Qmake n 1.

#[local] Instance numerics : Numerics := {|
  float := Q;
  f_zero := q 0;
  f_one := q 1;
  f_half := Qmake 1 2;
  fadd := fun a b => Qreduction.Qred (Qplus a b);
  fsub := fun a b => Qreduction.Qred (Qminus a b);
  fmul := fun a b => Qreduction.Qred (Qmult a b);
  fneg := fun a => Qreduction.Qred (Qopp a);
  mat3_t := (Q * Q * Q)%type
|}.

Fixpoint ext_scan (s : string) (cur : option string) : option string :=
  match s with
  | EmptyString => cur
  | String c s' =>
      if Ascii.eqb c "." then ext_scan s' (Some EmptyString)
      else ext_scan s' (option_map (fun e => (e ++ String c EmptyString)%string) cur)
  end.

#[local] Instance platform : Platform := {|
  extract_ext := fun path => ext_scan path None;
  md_lammps_atom_format_from_file := fun path =>
    if str_eq path "full.data" then MD_LAMMPS_ATOM_FORMAT 1 else MD_LAMMPS_ATOM_FORMAT_UNKNOWN;
  md_lammps_atom_format_strings := fun f =>
    match f with MD_LAMMPS_ATOM_FORMAT _ => "full" | MD_LAMMPS_ATOM_FORMAT_UNKNOWN => "" end;
  sizeof_lammps_arg := 64;
  sizeof_md_trajectory_i := 40;
  VIAMD_FRAME_CACHE_SIZE := 512;
  md_os_physical_ram := 16 * 1024 * 1024 * 1024
|}.

Definition sum_q (l : list Q) : Q := fold_right (fun a b => Qreduction.Qred (Qplus a b)) (q 0) l.

Definition pick (l : list Q) (indices : list Z) : list Q :=
  map (fun i => nth (Z.to_nat i) l (q 0)) indices.

(** The mass-weighted mean of one coordinate. *)
Definition weighted_mean (c mass : list Q) (indices : list Z) : Q :=
  let ms := pick mass indices in
  let cs := pick c indices in
  Qreduction.Qred
    (Qdiv (sum_q (map (fun p => Qmult (fst p) (snd p)) (combine cs ms))) (sum_q ms)).

(** A diagonal basis applied to a vector. *)
Definition diag_mul_vec3 (M : Q * Q * Q) (v : vec3_t) : vec3_t :=
  let '(a, b, c) := M in
  vec3_set (fmul a (vx v)) (fmul b (vy v)) (fmul c (vz v)).

#[local] Instance md_util : MdUtil := {|
  mat3_mul_vec3 := diag_mul_vec3;
  vec3_deperiodize := fun pos ref ext => pos;
  md_util_compute_com_ortho := fun x y z mass indices count ext =>
    vec3_set (weighted_mean x mass indices) (weighted_mean y mass indices)
      (weighted_mean z mass indices);
  md_util_com_compute := fun x y z mass indices count =>
    vec3_set (weighted_mean x mass indices) (weighted_mean y mass indices)
      (weighted_mean z mass indices);
  md_util_deperiodize_system := fun fd mass count cell offs inds n => fd
|}.

Definition no_cell : md_unit_cell_t := {| basis := (q 0, q 0, q 0); cell_flags := 0 |}.
Definition box10 : md_unit_cell_t := {| basis := (q 10, q 10, q 10); cell_flags := 1 |}.

Definition frame_of (cell : md_unit_cell_t) (idx : Z) : md_frame_data_t :=
  {| header := {| num_atoms := 2; index := idx; timestamp := q idx; unit_cell := cell |};
     x := [q (1 + idx); q 4];
     y := [q 2; q 5];
     z := [q 3; q 6] |}.

(** Frames 0 and 1 decode, frame 2 does not. *)
Definition two_atoms (cell : md_unit_cell_t) : md_trajectory_i :=
  {| traj_inst := 1000;
     md_trajectory_num_atoms := 2;
     md_trajectory_num_frames := 3;
     md_trajectory_fetch_frame_data := fun idx => [idx];
     md_trajectory_decode_frame_data := fun blob =>
       match blob with
       | [idx] => if idx =? 2 then None else Some (frame_of cell idx)
       | _ => None
       end;
     traj_decoded := [] |}.

Definition no_atoms : md_trajectory_i :=
  {| traj_inst := 2000;
     md_trajectory_num_atoms := 0;
     md_trajectory_num_frames := 1;
     md_trajectory_fetch_frame_data := fun idx => [idx];
     md_trajectory_decode_frame_data := fun blob => None;
     traj_decoded := [] |}.

(** The buffers of a slot that was never written. *)
Definition blank : md_frame_data_t :=
  {| header := {| num_atoms := 0; index := 0; timestamp := q 0; unit_cell := no_cell |};
     x := []; y := []; z := [] |}.

Definition untouched (t : md_trajectory_i) (idx : Z) (before : cache_slot) : md_frame_data_t :=
  match before with
  | SlotPopulated _ fd => fd
  | _ => blank
  end.

#[local] Instance backends : Backends := {|
  cache_victim := fun c idx => Z.to_nat (idx mod Z.of_nat (List.length (slots c)));
  traj_loader_create := fun l filename =>
    if str_eq filename "missing.xtc" then None
    else if str_eq filename "empty.xyz" then Some no_atoms
    else if str_eq filename "box.xtc" then Some (two_atoms box10)
    else Some (two_atoms no_cell);
  decode_failure_leaves := untouched
|}.

Definition molecule (n : Z) : md_molecule_t :=
  {| atom_count := n;
     atom_mass := repeat (q 1) (Z.to_nat n);
     structures := {| offsets := [0; n]; indices := map Z.of_nat (seq 0 (Z.to_nat n)) |} |}.

Definition start : globals :=
  {| loaded_trajectories := [];
     heap := {| next_ptr := 4096; blocks := [] |};
     destroyed := [];
     errors := [];
     spare_slots := [];
     handles := [] |}.

Definition entry (k : Z) : LoadedTrajectory :=
  {| key := k; mol := molecule 2; loader := md_xtc_trajectory_loader;
     traj := two_atoms no_cell; cache := md_frame_cache_init 2;
     recenter_target := []; deperiodize := false |}.

(** Eight trajectories open, each in the slot it was opened in. *)
Definition full : globals :=
  set_handles (set_loaded start (map entry [1; 2; 3; 4; 5; 6; 7; 8]))
    (map (fun k => (k, Z.to_nat (k - 1))) [1; 2; 3; 4; 5; 6; 7; 8]).

(** The state and the value of an outcome that returned. *)
Definition state_of {S A} (o : outcome S A) : S :=
  match o with Done _ s => s | Abort _ s => s end.

Definition value_of {S A} (o : outcome S A) : option A :=
  match o with Done a _ => Some a | Abort _ _ => None end.

(** Open a trajectory, recenter on atom 0, load frame 0, drop the
    recenter target again. *)
Definition opened : globals := state_of (traj.open_file start "a.xtc" None (molecule 2)).
Definition handle : Z := 4096.
Definition recentered : globals := snd (traj.set_recenter_target opened handle (Some [true; false])).
Definition loaded : globals := state_of (traj.traj_load_frame recentered handle 0).
Definition reset : globals := snd (traj.set_recenter_target loaded handle None).
(** The same, with the cache cleared while the target is still set. *)
Definition cleared : globals := snd (traj.clear_cache loaded handle).

(** The table entry of the handle in a state. *)
Definition entry_of (g : globals) : LoadedTrajectory :=
  match find_loaded_trajectory g handle with
  | Some e => e
  | None => entry handle
  end.

(** The entry after the target was dropped, and one never recentered. *)
Definition stale : LoadedTrajectory := entry_of reset.
Definition fresh : LoadedTrajectory := entry_of opened.

(** An entry whose recenter target is atom 0. *)
Definition masked : LoadedTrajectory := set_recenter (entry 1) [true; false].


End Examples.

(** ** Iso-surfaces ([isosurface.cpp])

    [isosurface.h] is not part of the sources: the colour type, the
    capacity [IsoSurface::MaxCount] and the comparison of two floats are
    fields of a class. *)

Class IsoSurfaceEnv {N : Numerics} : Type := {
  vec4 : Type;
  vec4_zero : vec4;
  MaxCount : Z;
  (** [a < b] on [float] *)
  float_lt : float -> float -> bool
}.

(** [a[i] = v] for an [int] index; a write outside the array is not
    modelled and leaves the list as it is. *)
Definition array_set {A : Type} (l : list A) (i : Z) (v : A) : list A :=
  if i <? 0 then l else list_set l (Z.to_nat i) v.

(** Elements [i] and [j] exchanged through a temporary. *)
Definition swap_list {A : Type} (l : list A) (i j : nat) : list A :=
  match nth_error l i, nth_error l j with
  | Some a, Some b => list_set (list_set l i b) j a
  | _, _ => l
  end.

Module isosurface.
Section Defs.
Context {N : Numerics} {I : IsoSurfaceEnv}.

Record IsoSurface : Type := {
  values : list float;
  colors : list vec4;
  count : Z
}.

Definition insert (surface : IsoSurface) (value : float) (color : vec4) : bool * IsoSurface :=
  if count surface >=? MaxCount then (false, surface)
  else
    (true,
     {| values := array_set (values surface) (count surface) value;
        colors := array_set (colors surface) (count surface) color;
        count := count surface + 1 |}).

(** [surface = {}] *)
Definition clear (surface : IsoSurface) : IsoSurface :=
  {| values := repeat f_zero (Z.to_nat MaxCount);
     colors := repeat vec4_zero (Z.to_nat MaxCount);
     count := 0 |}.

(** The body of the inner loop of [sort], for [i] and [j] within the
    arrays.  With [count] past the end of the arrays the source reads and
    exchanges elements outside them, which has no defined result: there
    the step is left as the identity, and the properties of [sort] are
    stated for [count] within the arrays. *)
Definition sort_step (i j : nat) (surface : IsoSurface) : IsoSurface :=
  match nth_error (values surface) j, nth_error (values surface) i with
  | Some vj, Some vi =>
      if float_lt vj vi then
        {| values := swap_list (values surface) i j;
           colors := swap_list (colors surface) i j;
           count := count surface |}
      else surface
  | _, _ => surface
  end.

(** [for (int j = i + 1; j < surface.count; ++j)] *)
Definition sort_inner (n i : nat) (surface : IsoSurface) : IsoSurface :=
  fold_left (fun s j => sort_step i j s) (seq (S i) (n - S i)) surface.

(** [for (int i = 0; i < surface.count - 1; ++i)] *)
Definition sort (surface : IsoSurface) : IsoSurface :=
  let n := Z.to_nat (count surface) in
  fold_left (fun s i => sort_inner n i s) (seq 0 (n - 1)) surface.

(** The (value, colour) pairs of the arrays. *)
Definition pairs (surface : IsoSurface) : list (float * vec4) :=
  combine (values surface) (colors surface).

(** The arrays have [MaxCount] elements and [count] is within them. *)
Definition well_formed (surface : IsoSurface) : Prop :=
  List.length (values surface) = Z.to_nat MaxCount
  /\ List.length (colors surface) = Z.to_nat MaxCount
  /\ 0 <= count surface <= MaxCount.

(** The values at [a] and [k] are not out of order: the later one is
    not below the earlier one. *)
Definition ordered_at (l : list float) (a k : nat) : Prop :=
  forall va vk, nth_error l a = Some va -> nth_error l k = Some vk -> float_lt vk va = false.

(** Inserting one pair after the other, ignoring the results. *)
Fixpoint insert_all (surface : IsoSurface) (items : list (float * vec4)) : IsoSurface :=
  match items with
  | [] => surface
  | (v, c) :: rest => insert_all (snd (insert surface v c)) rest
  end.

End Defs.
End isosurface.

(** ** Invariants of the table and of the allocator *)

Definition outcome_state {S A : Type} (o : outcome S A) : S :=
  match o with
  | Done _ s => s
  | Abort _ s => s
  end.

(** Every block lies below the next address handed out. *)
Definition alloc_ok (a : md_allocator_i) : Prop :=
  Forall (fun b => blk_ptr b < next_ptr a) (blocks a).

Section TableInvariant.
Context {N : Numerics}.

Definition keys (l : list LoadedTrajectory) : list Z := map key l.

(** No key twice, and no more entries than the array holds. *)
Definition table_ok (g : globals) : Prop :=
  NoDup (keys (loaded_trajectories g))
  /\ num_loaded_trajectories g <= ARRAY_SIZE_loaded_trajectories.

End TableInvariant.

(** Three iso-values with their colours, and the order of the
    rationals. *)
Module IsoExamples.

Import QArith_base.
Local Open Scope Z_scope.

Definition q_lt (a b : Q) : bool :=
  match Qcompare a b with Lt => true | _ => false end.

(** Colours named by a number, room for four pairs. *)
#[local] Instance iso_env : @IsoSurfaceEnv Examples.numerics :=
  @Build_IsoSurfaceEnv Examples.numerics nat O 4 q_lt.

Definition three : @isosurface.IsoSurface Examples.numerics iso_env :=
  @isosurface.Build_IsoSurface Examples.numerics iso_env
    [Examples.q 3; Examples.q 1; Examples.q 2; Examples.q 9]
    [30%nat; 10%nat; 20%nat; 90%nat]
    3.

Definition items : list (Q * nat) :=
  [(Examples.q 5, 50%nat); (Examples.q 4, 40%nat); (Examples.q 6, 60%nat)].

End IsoExamples.

(** ** The table of loaded molecules

    [loaded_molecules] with [num_loaded_molecules] as the length of the
    list; the [alloc] member is an address. *)

Module LoadedMolecule.
Record t : Type := {
  key : Z;
  alloc : Z
}.
End LoadedMolecule.

(** [ARRAY_SIZE(loaded_molecules)] *)
Definition ARRAY_SIZE_loaded_molecules : Z := 8.

Fixpoint find_loaded_molecule (l : list LoadedMolecule.t) (k : Z) : option LoadedMolecule.t :=
  match l with
  | [] => None
  | e :: l' => if LoadedMolecule.key e =? k then Some e else find_loaded_molecule l' k
  end.

Definition add_loaded_molecule (l : list LoadedMolecule.t) (obj : LoadedMolecule.t)
    : outcome (list LoadedMolecule.t) unit :=
  bind (ASSERT (match find_loaded_molecule l (LoadedMolecule.key obj) with
                | None => true
                | Some _ => false
                end) l) (fun _ l =>
  bind (ASSERT (Z.of_nat (List.length l) <? ARRAY_SIZE_loaded_molecules) l) (fun _ l =>
  Done tt (l ++ [obj])%list)).

(** [loaded_molecules[i] = loaded_molecules[--num_loaded_molecules]] at
    the first entry with the key; [ASSERT(false)] when there is none. *)
Fixpoint molecule_swap_back_and_pop (l : list LoadedMolecule.t) (k : Z)
    : list LoadedMolecule.t :=
  match l with
  | [] => []
  | e :: l' =>
      if LoadedMolecule.key e =? k then
        match rev l' with
        | [] => []
        | lst :: r => lst :: rev r
        end
      else e :: molecule_swap_back_and_pop l' k
  end.

Definition remove_loaded_molecule (l : list LoadedMolecule.t) (k : Z)
    : outcome (list LoadedMolecule.t) unit :=
  match find_loaded_molecule l k with
  | Some _ => Done tt (molecule_swap_back_and_pop l k)
  | None => Abort AssertionFailed l
  end.

(** Three molecules loaded. *)
Definition three_molecules : list LoadedMolecule.t :=
  [ {| LoadedMolecule.key := 10; LoadedMolecule.alloc := 1 |};
    {| LoadedMolecule.key := 20; LoadedMolecule.alloc := 1 |};
    {| LoadedMolecule.key := 30; LoadedMolecule.alloc := 1 |} ].

(** A load under a recenter target, for the examples of the cache. *)
Module CacheExamples.

Definition after_load : LoadedTrajectory :=
  outcome_state
    (@traj.decode_frame_data Examples.numerics Examples.md_util Examples.backends
       Examples.masked 0 8).

Definition loaded_frame : @md_frame_data_t Examples.numerics :=
  match @traj.decode_frame_data Examples.numerics Examples.md_util Examples.backends
          Examples.masked 0 8 with
  | Done (Some fd) _ => fd
  | _ => Examples.frame_of Examples.no_cell 0
  end.

Definition closed : globals :=
  outcome_state (@traj.close Examples.numerics Examples.opened Examples.handle).

End CacheExamples.

(** * Properties *)

(** ** The format registry *)

Lemma str_eq_ignore_case_tokens (exts : list string) (e : string) :
  existsb (fun t => str_eq_ignore_case e t) exts = true <-> registered exts e.
Proof.
  unfold registered. rewrite existsb_exists. reflexivity.
Qed.

Lemma mol_loader_from_ext_tokens (e : string) :
  is_mol_loader (mol_loader_from_ext e)
  = existsb (fun t => str_eq_ignore_case e t) spec_mol_extensions.
Proof.
  cbv -[str_eq_ignore_case].
  repeat match goal with
         | |- context [str_eq_ignore_case e ?t] => destruct (str_eq_ignore_case e t)
         end; reflexivity.
Qed.

Lemma traj_loader_from_ext_tokens (e : string) :
  is_traj_loader (traj_loader_from_ext e)
  = existsb (fun t => str_eq_ignore_case e t) spec_traj_extensions.
Proof.
  cbv -[str_eq_ignore_case].
  repeat match goal with
         | |- context [str_eq_ignore_case e ?t] => destruct (str_eq_ignore_case e t)
         end; reflexivity.
Qed.

Lemma mol_loader_api_some (l : mol_loader_t) :
  is_mol_loader l = true -> mol_loader_api l <> None.
Proof. destruct l; simpl; congruence. Qed.

Lemma traj_loader_api_some (l : traj_loader_t) :
  is_traj_loader l = true -> traj_loader_api l <> None.
Proof. destruct l; simpl; congruence. Qed.

Section LoaderStateProofs.
Context {P : Platform}.

Lemma preload_check_loaders (st : LoaderState.t) (l : mol_loader_t) (path : string)
    (a : md_allocator_i) :
  LoaderState.mol_loader (fst (mol_loader_preload_check st l path a)) = LoaderState.mol_loader st
  /\ LoaderState.traj_loader (fst (mol_loader_preload_check st l path a))
     = LoaderState.traj_loader st.
Proof.
  unfold mol_loader_preload_check.
  destruct l; simpl; auto.
  destruct (md_lammps_atom_format_from_file path); simpl; auto.
Qed.

(** The loaders [init_loader_state] leaves in the state are the ones the
    two enumerated lookups found. *)
Lemma init_loader_state_loaders (path : string) (a : md_allocator_i) :
  let st := snd (fst (init_loader_state path a)) in
  match extract_ext path with
  | Some e =>
      LoaderState.mol_loader st = mol_loader_api (mol_loader_from_ext e)
      /\ LoaderState.traj_loader st = traj_loader_api (traj_loader_from_ext e)
  | None => st = LoaderState_zero
  end.
Proof.
  unfold init_loader_state.
  destruct (extract_ext path) as [e|]; [|reflexivity].
  destruct (is_mol_loader (mol_loader_from_ext e)) eqn:Hm.
  - destruct (mol_loader_preload_check _ _ _ _) as [st1 a1] eqn:Hp.
    pose proof (preload_check_loaders
                  (set_mol_loader LoaderState_zero (mol_loader_api (mol_loader_from_ext e)))
                  (mol_loader_from_ext e) path a) as [H1 H2].
    rewrite Hp in H1, H2. simpl in H1, H2.
    destruct (is_traj_loader (traj_loader_from_ext e)) eqn:Ht; simpl; split; auto.
    destruct (traj_loader_from_ext e); simpl in *; congruence.
  - destruct (mol_loader_from_ext e); try discriminate.
    destruct (is_traj_loader (traj_loader_from_ext e)) eqn:Ht; simpl; split; auto.
    destruct (traj_loader_from_ext e); simpl in *; congruence.
Qed.

(** C8. [init_loader_state] returns true exactly when the extension of
    the path matches, up to letter case, a token of a molecule or a
    trajectory backend, which is exactly when it leaves a backend in the
    state; when it returns false the state is the zeroed one (no backend,
    no argument blob) and the allocator was not used. *)
Theorem init_loader_state_success_iff (path : string) (alloc : md_allocator_i) :
  (fst (fst (init_loader_state path alloc)) = true <->
     exists e, extract_ext path = Some e
               /\ (registered spec_mol_extensions e \/ registered spec_traj_extensions e))
  /\ (fst (fst (init_loader_state path alloc)) = true <->
        LoaderState.mol_loader (snd (fst (init_loader_state path alloc))) <> None
        \/ LoaderState.traj_loader (snd (fst (init_loader_state path alloc))) <> None)
  /\ (fst (fst (init_loader_state path alloc)) = false ->
        snd (fst (init_loader_state path alloc)) = LoaderState_zero
        /\ LoaderState.data_ptr (snd (fst (init_loader_state path alloc))) = None
        /\ snd (init_loader_state path alloc) = alloc).
Proof.
  set (r := init_loader_state path alloc).
  pose proof (init_loader_state_loaders path alloc) as HL. fold r in HL. simpl in HL.
  assert (Hok : fst (fst r) =
                match extract_ext path with
                | Some e => is_mol_loader (mol_loader_from_ext e)
                            || is_traj_loader (traj_loader_from_ext e)
                | None => false
                end).
  { unfold r, init_loader_state. destruct (extract_ext path) as [e|]; [|reflexivity].
    destruct (if is_mol_loader (mol_loader_from_ext e) then _ else _) as [s1 a1].
    destruct (if is_traj_loader (traj_loader_from_ext e) then _ else _) as [s2 a2].
    reflexivity. }
  split; [|split].
  - rewrite Hok. destruct (extract_ext path) as [e|].
    + rewrite orb_true_iff, mol_loader_from_ext_tokens, traj_loader_from_ext_tokens.
      rewrite !str_eq_ignore_case_tokens. split.
      * intros H. exists e. auto.
      * intros [e' [He H]]. inversion He; subst. exact H.
    + split; [discriminate|]. intros [e' [He _]]. discriminate.
  - rewrite Hok. destruct (extract_ext path) as [e|].
    + destruct HL as [H1 H2]. rewrite H1, H2, orb_true_iff. split.
      * intros [H|H]; [left; now apply mol_loader_api_some|right; now apply traj_loader_api_some].
      * intros [H|H].
        -- left. destruct (mol_loader_from_ext e); simpl in *; congruence.
        -- right. destruct (traj_loader_from_ext e); simpl in *; congruence.
    + rewrite HL. simpl. split; [discriminate|]. intros [H|H]; congruence.
  - rewrite Hok. unfold r, init_loader_state.
    destruct (extract_ext path) as [e|]; [|auto].
    intros H. apply orb_false_iff in H. destruct H as [Hm Ht].
    rewrite Hm, Ht. simpl. auto.
Qed.

(** The flag of the state is raised by the LAMMPS preflight and by
    nothing else. *)
Lemma init_loader_state_flags (path : string) (alloc : md_allocator_i) :
  LoaderState.flags (snd (fst (init_loader_state path alloc)))
  = match extract_ext path with
    | Some e =>
        match mol_loader_from_ext e, md_lammps_atom_format_from_file path with
        | MOL_LOADER_LAMMPS, MD_LAMMPS_ATOM_FORMAT_UNKNOWN => LoaderStateFlag_RequiresDialogue
        | _, _ => 0
        end
    | None => 0
    end.
Proof.
  unfold init_loader_state.
  destruct (extract_ext path) as [e|]; [|reflexivity].
  destruct (mol_loader_from_ext e); simpl;
    try (destruct (md_lammps_atom_format_from_file path); simpl);
    destruct (traj_loader_from_ext e); simpl;
    try (destruct (md_lammps_atom_format_from_file path)); reflexivity.
Qed.

(** C10. [mol::loader_requires_dialogue] is false for every loader
    pointer, null or not, in the table or not: every flag of the table is
    zero.  The flag [RequiresDialogue] reaches the caller through the
    loader state alone, where it is set exactly when the molecule loader is
    the LAMMPS one and the atom format of the file is unknown. *)
Theorem loader_requires_dialogue_never (loader : option md_molecule_loader_i)
    (path : string) (alloc : md_allocator_i) :
  mol.loader_requires_dialogue loader = false
  /\ Forall (fun f => f = FLAG_NONE) (table_entry_t.flags table)
  /\ (Z.land (LoaderState.flags (snd (fst (init_loader_state path alloc))))
        LoaderStateFlag_RequiresDialogue <> 0
      <-> exists e, extract_ext path = Some e
                    /\ mol_loader_from_ext e = MOL_LOADER_LAMMPS
                    /\ md_lammps_atom_format_from_file path = MD_LAMMPS_ATOM_FORMAT_UNKNOWN).
Proof.
  split; [|split].
  - destruct loader as [l|]; [|reflexivity]. destruct l; reflexivity.
  - repeat constructor.
  - rewrite init_loader_state_flags.
    destruct (extract_ext path) as [e|].
    + destruct (mol_loader_from_ext e) eqn:Hm;
        destruct (md_lammps_atom_format_from_file path) eqn:Hf; simpl;
        (split; [intros H; try (exfalso; apply H; reflexivity);
                 exists e; auto
                |intros [e' [He [Hm' Hf']]]; inversion He; subst;
                 try congruence; discriminate]).
    + simpl. split; [intros H; exfalso; apply H; reflexivity|].
      intros [e' [He _]]. discriminate.
Qed.

End LoaderStateProofs.

(** C4. The lookups [mol::loader_from_ext] and [traj::loader_from_ext]
    compare with [str_eq]: an extension in upper case finds nothing, where
    the registered token finds the backend and where the enumerated
    lookups of the same file, which compare ignoring case, find it. *)
Theorem loader_from_ext_case_sensitive :
  str_eq_ignore_case "PDB" "pdb" = true
  /\ mol.loader_from_ext "pdb" = Some md_pdb_molecule_api
  /\ mol.loader_from_ext "PDB" = None
  /\ mol_loader_api (mol_loader_from_ext "PDB") = Some md_pdb_molecule_api
  /\ str_eq_ignore_case "XTC" "xtc" = true
  /\ traj.loader_from_ext "xtc" = Some md_xtc_trajectory_loader
  /\ traj.loader_from_ext "XTC" = None
  /\ traj_loader_api (traj_loader_from_ext "XTC") = Some md_xtc_trajectory_loader.
Proof. repeat split; reflexivity. Qed.

(** ** The frame cache *)

Section CacheProofs.
Context {N : Numerics}.

Lemma set_slot_length (l : list cache_slot) (i : nat) (s : cache_slot) :
  List.length (set_slot l i s) = List.length l.
Proof.
  revert i. induction l as [|a l IH]; intros [|i]; simpl; auto.
Qed.

Lemma set_slot_Forall (Q : cache_slot -> Prop) (l : list cache_slot) (i : nat) (s : cache_slot) :
  Forall Q l -> Q s -> Forall Q (set_slot l i s).
Proof.
  intros Hl Hs. revert i. induction Hl as [|a l Ha Hl IH]; intros [|i]; simpl; auto.
Qed.

Lemma set_slot_nth (l : list cache_slot) (i : nat) (s : cache_slot) :
  (i < List.length l)%nat -> nth_error (set_slot l i s) i = Some s.
Proof.
  revert i. induction l as [|a l IH]; intros [|i] H; simpl in *; try lia; auto.
  apply IH. lia.
Qed.

Lemma find_slot_In (idx : Z) (l : list cache_slot) (k i : nat) (fd : md_frame_data_t) :
  find_slot idx l k = Some (i, fd) -> In (SlotPopulated idx fd) l.
Proof.
  revert k. induction l as [|a l IH]; intros k H; simpl in H; [discriminate|].
  destruct a as [|j|j fd'].
  - right. eauto.
  - right. eauto.
  - destruct (j =? idx) eqn:E.
    + apply Z.eqb_eq in E. inversion H; subst. now left.
    + right. eauto.
Qed.


End CacheProofs.

(** ** Decoding through the facade *)

Section FacadeProofs.
Context {P : Platform} {N : Numerics} {U : MdUtil} {B : Backends}.

Lemma recenter_empty_mask (m : md_molecule_t) (bf : md_bitfield_t) (fd : md_frame_data_t) :
  md_bitfield_empty bf = true -> traj.recenter m bf fd = Some fd.
Proof.
  intros H. unfold traj.recenter. now rewrite H.
Qed.

Lemma slot_plain_same (a b : LoadedTrajectory) (s : cache_slot) :
  mol a = mol b -> deperiodize a = deperiodize b -> same_backend (traj a) (traj b) ->
  slot_plain a s -> slot_plain b s.
Proof.
  intros Hm Hd [_ [Hf Hdec]] H. destruct s; simpl in *; auto.
  unfold backend_load_frame in *. now rewrite <- Hm, <- Hd, <- Hf, <- Hdec.
Qed.

Lemma plain_result_same (a b : LoadedTrajectory) (idx : Z) :
  mol a = mol b -> deperiodize a = deperiodize b -> same_backend (traj a) (traj b) ->
  plain_result a idx = plain_result b idx.
Proof.
  intros Hm Hd [_ [Hf Hdec]]. unfold plain_result, backend_load_frame.
  now rewrite Hm, Hd, Hf, Hdec.
Qed.

Lemma same_backend_note (t : md_trajectory_i) (idx : Z) : same_backend t (note_decode t idx).
Proof. repeat split. Qed.

Lemma same_backend_trans (a b c : md_trajectory_i) :
  same_backend a b -> same_backend b c -> same_backend a c.
Proof.
  intros [H1 [H2 H3]] [H4 [H5 H6]]. repeat split; congruence.
Qed.

Lemma same_backend_sym (a b : md_trajectory_i) : same_backend a b -> same_backend b a.
Proof.
  intros [H1 [H2 H3]]. repeat split; congruence.
Qed.

(** A decode with no mask in force, on a cache that holds only plain
    frames: the result is the plain one whether the frame was cached or
    not, and the cache stays plain when the backend decoded the frame. *)
Lemma decode_frame_data_plain (inst : LoadedTrajectory) (idx : Z) :
  md_bitfield_empty (recenter_target inst) = true ->
  cache_plain inst ->
  0 <= idx < md_trajectory_num_frames (traj inst) ->
  (cache_victim (cache inst) idx < List.length (slots (cache inst)))%nat ->
  exists inst',
    traj.decode_frame_data inst idx 8 = Done (plain_result inst idx) inst'
    /\ (backend_load_frame (traj inst) idx <> None -> cache_plain inst')
    /\ recenter_target inst' = recenter_target inst
    /\ deperiodize inst' = deperiodize inst
    /\ mol inst' = mol inst
    /\ same_backend (traj inst) (traj inst')
    /\ List.length (slots (cache inst')) = List.length (slots (cache inst))
    /\ key inst' = key inst.
Proof.
  intros Hmask Hplain Hidx Hvic.
  unfold traj.decode_frame_data. simpl.
  replace ((0 <=? idx) && (idx <? md_trajectory_num_frames (traj inst))) with true
    by (symmetry; apply andb_true_iff; split; [apply Z.leb_le|apply Z.ltb_lt]; lia).
  simpl. unfold traj.decode_through_cache, traj.md_frame_cache_find_or_reserve.
  destruct (find_slot idx (slots (cache inst)) 0) as [[i fd]|] eqn:Hfind.
  - exists inst. repeat split; auto.
    apply find_slot_In in Hfind.
    unfold cache_plain in Hplain. rewrite Forall_forall in Hplain.
    specialize (Hplain _ Hfind). simpl in Hplain.
    unfold plain_result.
    destruct (backend_load_frame (traj inst) idx); simpl in *; congruence.
  - apply Nat.ltb_lt in Hvic. rewrite Hvic. apply Nat.ltb_lt in Hvic.
    set (v := cache_victim (cache inst) idx) in *.
    set (c := {| slots := set_slot (slots (cache inst)) v (SlotReserved idx) |}).
    simpl.
    change (md_trajectory_decode_frame_data (traj inst)
              (md_trajectory_fetch_frame_data (traj inst) idx))
      with (backend_load_frame (traj inst) idx).
    unfold plain_result.
    destruct (backend_load_frame (traj inst) idx) as [fd|] eqn:Hload; simpl.
    + unfold traj.post_decode. simpl.
      rewrite (recenter_empty_mask _ _ _ Hmask).
      eexists. split; [reflexivity|].
      repeat split; simpl; auto.
      * intros _. unfold cache_plain. simpl.
        unfold traj.md_frame_cache_frame_lock_release, traj.slot_store. simpl.
        apply set_slot_Forall; [apply set_slot_Forall|].
        -- eapply Forall_impl; [|exact Hplain]. intros s Hs.
           eapply slot_plain_same; [| | |exact Hs]; try reflexivity. repeat split.
        -- exact I.
        -- simpl. unfold backend_load_frame in *. simpl. now rewrite Hload.
      * unfold traj.md_frame_cache_frame_lock_release, traj.slot_store. simpl.
        now rewrite !set_slot_length.
    + eexists. split; [reflexivity|].
      repeat split; simpl; auto.
      * intros Hne. now elim Hne.
      * unfold traj.md_frame_cache_frame_lock_release, traj.slot_store. simpl.
        now rewrite !set_slot_length.
Qed.

End FacadeProofs.

Section FacadeClaims.
Context {P : Platform} {N : Numerics} {U : MdUtil} {B : Backends}.

(** A hit returns the frame as it sits in the cache, whatever mask and
    flag are in force now. *)
Lemma decode_frame_data_hit (inst : LoadedTrajectory) (idx : Z) (i : nat) (fd : md_frame_data_t) :
  0 <= idx < md_trajectory_num_frames (traj inst) ->
  find_slot idx (slots (cache inst)) 0 = Some (i, fd) ->
  traj.decode_frame_data inst idx 8 = Done (Some (traj.copy_out fd)) inst.
Proof.
  intros Hidx Hfind. unfold traj.decode_frame_data. simpl.
  replace ((0 <=? idx) && (idx <? md_trajectory_num_frames (traj inst))) with true
    by (symmetry; apply andb_true_iff; split; [apply Z.leb_le|apply Z.ltb_lt]; lia).
  simpl. unfold traj.decode_through_cache, traj.md_frame_cache_find_or_reserve.
  now rewrite Hfind.
Qed.


Lemma cache_plain_init (inst : LoadedTrajectory) (n : Z) :
  cache_plain (set_cache inst (md_frame_cache_init n)).
Proof.
  unfold cache_plain. simpl. generalize (Z.to_nat n) as k.
  induction k; simpl; constructor; auto. exact I.
Qed.



Lemma find_entry_key (l : list LoadedTrajectory) (k : Z) (e : LoadedTrajectory) :
  find_entry l k = Some e -> key e = k.
Proof.
  induction l as [|a l IH]; simpl; [discriminate|].
  destruct (key a =? k) eqn:E; auto.
  intros H. inversion H; subst. now apply Z.eqb_eq.
Qed.

Lemma find_update_entry (l : list LoadedTrajectory) (k : Z) (e e' : LoadedTrajectory) :
  find_entry l k = Some e -> key e' = k ->
  find_entry (update_entry l k e') k = Some e'.
Proof.
  intros Hf Hk. induction l as [|a l IH]; simpl in *; [discriminate|].
  destruct (key a =? k) eqn:E; simpl.
  - now rewrite Hk, Z.eqb_refl.
  - rewrite E. auto.
Qed.

(** [find_index] and [find_entry] name the same slot. *)
Lemma find_index_entry (l : list LoadedTrajectory) (h : Z) : forall k : nat,
  find_index l h = Some k ->
  find_entry l h = nth_error l k
  /\ (k < List.length l)%nat
  /\ forall e', update_entry l h e' = list_set l k e'.
Proof.
  induction l as [|a l IH]; simpl; intros k H; [discriminate|].
  destruct (key a =? h) eqn:E.
  - inversion H; subst. simpl. repeat split; auto. lia.
  - destruct (find_index l h) as [k'|] eqn:Hk; simpl in H; [|discriminate].
    inversion H; subst. destruct (IH k' eq_refl) as [H1 [H2 H3]].
    simpl. repeat split; auto; [lia|]. intros e'. now rewrite H3.
Qed.

Lemma find_index_update (l : list LoadedTrajectory) (h k : Z) (e' : LoadedTrajectory) :
  key e' = k -> find_index (update_entry l k e') h = find_index l h.
Proof.
  intros Hk. induction l as [|a l IH]; simpl; [reflexivity|].
  destruct (key a =? k) eqn:E; simpl.
  - apply Z.eqb_eq in E. now rewrite Hk, <- E.
  - now rewrite IH.
Qed.

Lemma nth_error_app_left {A : Type} (l l' : list A) (k : nat) :
  (k < List.length l)%nat -> nth_error (l ++ l') k = nth_error l k.
Proof. intros H. now apply nth_error_app1. Qed.

(** Through a handle in place a load works on the entry of the key, and
    writes it back there. *)
Lemma traj_load_frame_in_place (g : globals) (h : Z) (e : LoadedTrajectory) (idx : Z) :
  handle_in_place g h ->
  find_loaded_trajectory g h = Some e ->
  traj.traj_load_frame g h idx
  = match traj.load_frame e idx with
    | Done r e' => Done r (set_loaded g (update_entry (loaded_trajectories g) h e'))
    | Abort ft e' => Abort ft (set_loaded g (update_entry (loaded_trajectories g) h e'))
    end.
Proof.
  intros [k [Hh Hi]] Hf.
  destruct (find_index_entry _ _ _ Hi) as [H1 [H2 H3]].
  unfold traj.traj_load_frame, traj.with_entry, slot_at, set_slot_at.
  rewrite Hh, nth_error_app_left by exact H2.
  unfold find_loaded_trajectory in Hf. rewrite <- H1, Hf.
  apply Nat.ltb_lt in H2. rewrite H2.
  destruct (traj.load_frame e idx); now rewrite H3.
Qed.

Lemma handle_in_place_update (g : globals) (h : Z) (e' : LoadedTrajectory) :
  key e' = h ->
  handle_in_place g h ->
  handle_in_place (set_loaded g (update_entry (loaded_trajectories g) h e')) h.
Proof.
  intros Hk [k [Hh Hi]]. exists k. simpl. split; [exact Hh|].
  now rewrite find_index_update.
Qed.

(** Frames loaded in a row through a handle in place. *)
Lemma handle_load_frames_plain (idxs : list Z) : forall (g : globals) (h : Z) (e : LoadedTrajectory),
  policy_ok ->
  handle_in_place g h ->
  find_loaded_trajectory g h = Some e ->
  md_bitfield_empty (recenter_target e) = true ->
  cache_plain e ->
  (0 < List.length (slots (cache e)))%nat ->
  Forall (fun idx => 0 <= idx < md_trajectory_num_frames (traj e)) idxs ->
  all_decodable (traj e) idxs ->
  handle_load_frames g h idxs = map (plain_result e) idxs.
Proof.
  induction idxs as [|idx rest IH]; intros g h e Hpol Hin Hf Hmask Hplain Hne Hall Hdec;
    [reflexivity|].
  inversion Hall as [|? ? Hidx Hrest]; subst.
  inversion Hdec as [|? ? Hd1 Hdrest]; subst.
  destruct (decode_frame_data_plain e idx Hmask Hplain Hidx (Hpol _ _ Hne))
    as [e' [Hdo [Hp' [Hm' [Hd' [Hmol [Hsame [Hlen Hkey]]]]]]]].
  assert (Hk : key e' = h) by (rewrite Hkey; eapply find_entry_key; exact Hf).
  simpl. rewrite (traj_load_frame_in_place g h e idx Hin Hf).
  unfold traj.load_frame. rewrite Hdo. f_equal.
  rewrite (IH _ h e'); auto.
  - apply map_ext. intros i. apply plain_result_same; auto using same_backend_sym.
  - now apply handle_in_place_update.
  - unfold find_loaded_trajectory in *. simpl. eapply find_update_entry; eauto.
  - congruence.
  - lia.
  - destruct Hsame as [Hnf _]. rewrite <- Hnf. exact Hrest.
  - unfold all_decodable in *. eapply Forall_impl; [|exact Hdrest].
    intros i Hi. unfold backend_load_frame in *.
    destruct Hsame as [_ [Hfe Hde]]. now rewrite <- Hfe, <- Hde.
Qed.

(** C9 (amended). [set_recenter_target(h, null)] leaves the handle with
    an empty mask whatever mask it had.  Let the entry of the handle be
    where it was opened, its cache have a slot and hold no frame decoded
    under the earlier mask or left by a failed decode, and the eviction
    policy name an existing slot.  Then every sequence of loads through
    the handle, of frames in range that the backend decodes, gives what
    it gives through a handle under the same conditions on the same
    backend, molecule and flag whose target was never set. *)
Theorem set_recenter_target_null_as_never_set
    (g g0 : globals) (h h0 : Z) (e e0 : LoadedTrajectory) (idxs : list Z) :
  policy_ok ->
  handle_in_place g h ->
  find_loaded_trajectory g h = Some e ->
  cache_plain e ->
  (0 < List.length (slots (cache e)))%nat ->
  handle_in_place g0 h0 ->
  find_loaded_trajectory g0 h0 = Some e0 ->
  recenter_target e0 = md_bitfield_init ->
  mol e0 = mol e ->
  deperiodize e0 = deperiodize e ->
  same_backend (traj e0) (traj e) ->
  cache_plain e0 ->
  (0 < List.length (slots (cache e0)))%nat ->
  Forall (fun idx => 0 <= idx < md_trajectory_num_frames (traj e)) idxs ->
  all_decodable (traj e) idxs ->
  exists e',
    traj.set_recenter_target g h None
    = (true, set_loaded g (update_entry (loaded_trajectories g) h e'))
    /\ find_loaded_trajectory (snd (traj.set_recenter_target g h None)) h = Some e'
    /\ recenter_target e' = md_bitfield_init
    /\ handle_in_place (snd (traj.set_recenter_target g h None)) h
    /\ handle_load_frames (snd (traj.set_recenter_target g h None)) h idxs
       = handle_load_frames g0 h0 idxs.
Proof.
  intros Hpol Hin Hfind Hplain Hne Hin0 Hfind0 Hmask0 Hmol Hdep Hsame Hplain0 Hne0 Hall Hdec.
  exists (set_recenter e (md_bitfield_clear (recenter_target e))).
  assert (Hkey : key e = h) by (eapply find_entry_key; exact Hfind).
  assert (Hf' : find_loaded_trajectory
                  (set_loaded g (update_entry (loaded_trajectories g) h
                                   (set_recenter e (md_bitfield_clear (recenter_target e))))) h
                = Some (set_recenter e (md_bitfield_clear (recenter_target e)))).
  { unfold find_loaded_trajectory in *. simpl. eapply find_update_entry; eauto. }
  assert (Hin' : handle_in_place
                   (set_loaded g (update_entry (loaded_trajectories g) h
                                    (set_recenter e (md_bitfield_clear (recenter_target e))))) h).
  { now apply handle_in_place_update. }
  unfold traj.set_recenter_target. rewrite Hfind. simpl.
  split; [reflexivity|]. split; [exact Hf'|]. split; [reflexivity|]. split; [exact Hin'|].
  rewrite (handle_load_frames_plain idxs _ h _ Hpol Hin' Hf'); auto.
  rewrite (handle_load_frames_plain idxs g0 h0 e0 Hpol Hin0 Hfind0); auto.
  - apply map_ext. intros i. apply plain_result_same; simpl; auto using same_backend_sym.
  - now rewrite Hmask0.
  - destruct Hsame as [Hnf _]. rewrite Hnf. exact Hall.
  - unfold all_decodable in *. eapply Forall_impl; [|exact Hdec].
    intros i Hi. unfold backend_load_frame in *.
    destruct Hsame as [_ [Hfe Hde]]. now rewrite Hfe, Hde.
Qed.

End FacadeClaims.

(** ** The recenter mask *)










Section RecenterProofs.
Context {P : Platform} {N : Numerics} {U : MdUtil} {B : Backends}.





End RecenterProofs.

(** ** Opening a trajectory *)

Lemma u64_small (v : Z) : 0 <= v < 2 ^ 64 -> u64 v = v.
Proof. intros H. unfold u64. now apply Z.mod_small. Qed.

Lemma i64_small (v : Z) : - 2 ^ 63 <= v < 2 ^ 63 -> i64 v = v.
Proof.
  intros H. unfold i64. rewrite Z.mod_small; lia.
Qed.

Lemma MIN_min (a b : Z) : MIN a b = Z.min a b.
Proof. unfold MIN. destruct (Z.ltb_spec a b); lia. Qed.

Lemma MAX_max (a b : Z) : MAX a b = Z.max a b.
Proof.
  unfold MAX. rewrite Z.gtb_ltb. destruct (Z.ltb_spec b a); lia.
Qed.

Lemma CLAMP_clamp (v lo hi : Z) : CLAMP v lo hi = spec_clamp v lo hi.
Proof. unfold CLAMP, spec_clamp. now rewrite MIN_min, MAX_max. Qed.

Section OpenProofs.
Context {P : Platform} {N : Numerics} {U : MdUtil} {B : Backends}.

Lemma find_entry_app_new (l : list LoadedTrajectory) (k : Z) (e' : LoadedTrajectory) :
  find_entry l k = None -> key e' = k ->
  find_entry (l ++ [e'])%list k = Some e'.
Proof.
  intros Hf He'. induction l as [|a l IH]; simpl in *.
  - now rewrite He', Z.eqb_refl.
  - destruct (key a =? k) eqn:E; [discriminate|]. auto.
Qed.

(** The entry just appended, written through the pointer
    [alloc_loaded_trajectory] returned. *)
Lemma list_set_snoc {A : Type} (l : list A) (a b : A) :
  list_set (l ++ [a])%list (List.length l) b = (l ++ [b])%list.
Proof.
  induction l as [|c l IH]; simpl; [reflexivity|]. now rewrite IH.
Qed.

(** The number of cache frames [open_file] computes, away from the
    division by zero and from wrap-around. *)
Lemma num_cache_frames_for_spec (bt : md_trajectory_i) (m : md_molecule_t) :
  0 < atom_count m ->
  atom_count m * 3 * 4 < 2 ^ 64 ->
  0 <= md_trajectory_num_frames bt < 2 ^ 63 ->
  0 <= md_os_physical_ram < 2 ^ 64 ->
  traj.num_cache_frames_for bt m
  = Some (spec_cache_capacity (md_trajectory_num_frames bt) (atom_count m)
            (MEGABYTES VIAMD_FRAME_CACHE_SIZE) md_os_physical_ram)
  /\ 0 <= spec_cache_capacity (md_trajectory_num_frames bt) (atom_count m)
            (MEGABYTES VIAMD_FRAME_CACHE_SIZE) md_os_physical_ram.
Proof.
  intros Hpos Hwrap Hnf Hram.
  unfold traj.num_cache_frames_for, spec_cache_capacity, spec_available_bytes.
  rewrite CLAMP_clamp.
  change (MEGABYTES 4) with (4 * 1024 * 1024).
  set (avail := spec_clamp (MEGABYTES VIAMD_FRAME_CACHE_SIZE) (4 * 1024 * 1024)
                  (md_os_physical_ram / 4)).
  assert (Hq : 0 <= md_os_physical_ram / 4 < 2 ^ 62).
  { split; [apply Z.div_pos; lia|].
    apply Z.div_lt_upper_bound; [lia|]. change (4 * 2 ^ 62) with (2 ^ 64). lia. }
  assert (Hav : 0 <= avail < 2 ^ 62) by (unfold avail, spec_clamp; lia).
  assert (H62 : 2 ^ 62 < 2 ^ 64) by reflexivity.
  assert (H63 : 2 ^ 63 < 2 ^ 64) by reflexivity.
  rewrite (u64_small (md_trajectory_num_frames bt)) by lia.
  rewrite (u64_small avail) by lia.
  rewrite (u64_small (atom_count m)) by lia.
  rewrite (u64_small (atom_count m * 3 * 4)) by lia.
  destruct (Z.eqb_spec (atom_count m * 3 * 4) 0) as [E|E]; [lia|].
  assert (Hd : 0 <= avail / (atom_count m * 3 * 4)) by (apply Z.div_pos; lia).
  rewrite MIN_min. rewrite i64_small by lia.
  split; [reflexivity|lia].
Qed.

(** C3. When the backend [open_file] created reports another atom count
    than the molecule, [open_file] destroys that backend and returns null,
    and the table of open trajectories is as before. *)
Theorem open_file_topology_mismatch (g : globals) (filename : string)
    (loader : option md_trajectory_loader_i) (m : md_molecule_t)
    (l : md_trajectory_loader_i) (bt : md_trajectory_i) :
  traj.resolve_loader filename loader = Some l ->
  traj_loader_create l filename = Some bt ->
  md_trajectory_num_atoms bt <> atom_count m ->
  exists g',
    traj.open_file g filename loader m = Done None g'
    /\ destroyed g' = bt :: destroyed g
    /\ loaded_trajectories g' = loaded_trajectories g
    /\ num_loaded_trajectories g' = num_loaded_trajectories g
    /\ heap g' = heap g.
Proof.
  intros Hl Hc Hn. unfold traj.open_file, traj.open_file_with. rewrite Hl, Hc.
  apply Z.eqb_neq in Hn. rewrite Hn. simpl.
  eexists. split; [reflexivity|]. repeat split.
Qed.

(** C5. With eight trajectories in the table, a ninth [open_file] on a
    file for which the backend is created with the molecule's atom count
    does not return null.  It allocates the handle and then stops at the
    capacity assertion of [alloc_loaded_trajectory]; where [ASSERT]
    expands to nothing it writes the entry past the end of the array.
    The table keeps its eight entries, and the backend just created is
    not destroyed, unlike on the failure paths that return null. *)
Theorem open_file_at_capacity (g : globals) (filename : string)
    (loader : option md_trajectory_loader_i) (m : md_molecule_t)
    (l : md_trajectory_loader_i) (bt : md_trajectory_i) :
  num_loaded_trajectories g = ARRAY_SIZE_loaded_trajectories ->
  traj.resolve_loader filename loader = Some l ->
  traj_loader_create l filename = Some bt ->
  md_trajectory_num_atoms bt = atom_count m ->
  (exists g',
     traj.open_file g filename loader m = Abort AssertionFailed g'
     /\ loaded_trajectories g' = loaded_trajectories g
     /\ destroyed g' = destroyed g
     /\ heap g' = snd (md_alloc (heap g) sizeof_md_trajectory_i ""))
  /\ (exists g',
        traj.open_file_unchecked g filename loader m = Abort OutOfBounds g'
        /\ loaded_trajectories g' = loaded_trajectories g
        /\ destroyed g' = destroyed g
        /\ heap g' = snd (md_alloc (heap g) sizeof_md_trajectory_i "")).
Proof.
  intros Hfull Hl Hc Hn.
  unfold traj.open_file, traj.open_file_unchecked, traj.open_file_with.
  rewrite Hl, Hc. apply Z.eqb_eq in Hn. rewrite Hn. simpl. split.
  - unfold alloc_loaded_trajectory. simpl.
    destruct (find_loaded_trajectory _ _); simpl.
    + eexists. repeat split.
    + unfold num_loaded_trajectories in *. simpl. rewrite Hfull. simpl.
      eexists. repeat split.
  - unfold alloc_loaded_trajectory_unchecked.
    unfold num_loaded_trajectories in *. simpl. rewrite Hfull. simpl.
    eexists. repeat split.
Qed.

(** C7 (amended). For a molecule with at least one atom (and
    [atom_count * 12] below [2^64]), a backend with [num_frames] frames
    and matching atom count, and room in the table, [open_file] returns a
    handle whose frame cache has [min(num_frames, available_bytes /
    approx_frame_bytes)] slots, where [available_bytes] is the configured
    size clamped to [4 MiB, physical_ram / 4] and [approx_frame_bytes =
    atom_count * 3 * 4]; its mask is empty and [deperiodize] is false. *)
Theorem open_file_cache_capacity (g : globals) (filename : string)
    (loader : option md_trajectory_loader_i) (m : md_molecule_t)
    (l : md_trajectory_loader_i) (bt : md_trajectory_i) :
  traj.resolve_loader filename loader = Some l ->
  traj_loader_create l filename = Some bt ->
  md_trajectory_num_atoms bt = atom_count m ->
  find_loaded_trajectory g (next_ptr (heap g)) = None ->
  num_loaded_trajectories g < ARRAY_SIZE_loaded_trajectories ->
  0 < atom_count m ->
  atom_count m * 3 * 4 < 2 ^ 64 ->
  0 <= md_trajectory_num_frames bt < 2 ^ 63 ->
  0 <= md_os_physical_ram < 2 ^ 64 ->
  exists g' e,
    traj.open_file g filename loader m = Done (Some (next_ptr (heap g))) g'
    /\ find_loaded_trajectory g' (next_ptr (heap g)) = Some e
    /\ traj e = bt
    /\ Z.of_nat (List.length (slots (cache e)))
       = spec_cache_capacity (md_trajectory_num_frames bt) (atom_count m)
           (MEGABYTES VIAMD_FRAME_CACHE_SIZE) md_os_physical_ram
    /\ md_bitfield_empty (recenter_target e) = true
    /\ deperiodize e = false
    /\ num_loaded_trajectories g' = num_loaded_trajectories g + 1.
Proof.
  intros Hl Hc Hn Hfresh Hroom Hpos Hwrap Hnf Hram.
  destruct (num_cache_frames_for_spec bt m Hpos Hwrap Hnf Hram) as [Hcap Hcap0].
  unfold traj.open_file, traj.open_file_with. rewrite Hl, Hc.
  apply Z.eqb_eq in Hn. rewrite Hn. simpl.
  unfold alloc_loaded_trajectory. simpl.
  unfold find_loaded_trajectory in *. simpl. rewrite Hfresh. simpl.
  apply Z.ltb_lt in Hroom. unfold num_loaded_trajectories in *. simpl.
  rewrite Hroom. simpl. rewrite Hcap.
  unfold take_next_slot. simpl. rewrite list_set_snoc.
  eexists. eexists. split; [reflexivity|]. simpl.
  split; [apply find_entry_app_new; auto|].
  simpl. repeat split.
  - rewrite repeat_length. rewrite Z2Nat.id; [reflexivity|exact Hcap0].
  - rewrite length_app. simpl. lia.
Qed.

End OpenProofs.

(** ** The properties at concrete inputs *)

Lemma examples_policy_ok :
  @policy_ok Examples.numerics Examples.backends.
Proof.
  intros c idx H. simpl.
  pose proof (Z.mod_pos_bound idx (Z.of_nat (List.length (slots c)))). lia.
Qed.



Lemma open_file_topology_mismatch_witness :
  exists g',
    @traj.open_file Examples.platform Examples.numerics Examples.backends
      Examples.start "a.xtc" None (Examples.molecule 3) = Done None g'
    /\ destroyed g' = [Examples.two_atoms Examples.no_cell]
    /\ loaded_trajectories g' = [].
Proof.
  destruct (@open_file_topology_mismatch Examples.platform Examples.numerics Examples.backends
              Examples.start "a.xtc" None (Examples.molecule 3)
              md_xtc_trajectory_loader (Examples.two_atoms Examples.no_cell))
    as [g' [H1 [H2 [H3 _]]]].
  - reflexivity.
  - reflexivity.
  - simpl. lia.
  - exists g'. auto.
Defined.

Lemma open_file_at_capacity_witness :
  (exists g',
     @traj.open_file Examples.platform Examples.numerics Examples.backends
       Examples.full "a.xtc" None (Examples.molecule 2) = Abort AssertionFailed g'
     /\ loaded_trajectories g' = loaded_trajectories Examples.full
     /\ destroyed g' = [])
  /\ (exists g',
        @traj.open_file_unchecked Examples.platform Examples.numerics Examples.backends
          Examples.full "a.xtc" None (Examples.molecule 2) = Abort OutOfBounds g'
        /\ loaded_trajectories g' = loaded_trajectories Examples.full).
Proof.
  destruct (@open_file_at_capacity Examples.platform Examples.numerics Examples.backends
              Examples.full "a.xtc" None (Examples.molecule 2)
              md_xtc_trajectory_loader (Examples.two_atoms Examples.no_cell))
    as [[g1 [H1 [H2 [H3 _]]]] [g2 [H4 [H5 _]]]].
  - reflexivity.
  - reflexivity.
  - reflexivity.
  - reflexivity.
  - split; [exists g1|exists g2]; auto.
Defined.


Lemma open_file_cache_capacity_witness :
  exists g' e,
    @traj.open_file Examples.platform Examples.numerics Examples.backends
      Examples.start "a.xtc" None (Examples.molecule 2) = Done (Some 4096) g'
    /\ find_loaded_trajectory g' 4096 = Some e
    /\ Z.of_nat (List.length (slots (cache e))) = 3.
Proof.
  destruct (@open_file_cache_capacity Examples.platform Examples.numerics Examples.backends
              Examples.start "a.xtc" None (Examples.molecule 2)
              md_xtc_trajectory_loader (Examples.two_atoms Examples.no_cell))
    as [g' [e [H1 [H2 [_ [H3 _]]]]]].
  - reflexivity.
  - reflexivity.
  - reflexivity.
  - reflexivity.
  - reflexivity.
  - reflexivity.
  - reflexivity.
  - simpl. split; [lia|reflexivity].
  - simpl. split; [lia|reflexivity].
  - exists g', e. split; [exact H1|]. split; [exact H2|]. rewrite H3. reflexivity.
Defined.

Lemma set_recenter_target_null_as_never_set_witness :
  exists e',
    find_loaded_trajectory
      (snd (@traj.set_recenter_target Examples.numerics Examples.cleared Examples.handle None))
      Examples.handle = Some e'
    /\ recenter_target e' = md_bitfield_init
    /\ @handle_load_frames Examples.numerics Examples.md_util Examples.backends
         (snd (@traj.set_recenter_target Examples.numerics Examples.cleared Examples.handle None))
         Examples.handle [0; 1; 0]
       = @handle_load_frames Examples.numerics Examples.md_util Examples.backends
           Examples.opened Examples.handle [0; 1; 0].
Proof.
  destruct (@set_recenter_target_null_as_never_set Examples.numerics Examples.md_util
              Examples.backends Examples.cleared Examples.opened Examples.handle Examples.handle
              (Examples.entry_of Examples.cleared) (Examples.entry_of Examples.opened)
              [0; 1; 0])
    as [e' [_ [H1 [H2 [_ H3]]]]].
  - exact examples_policy_ok.
  - exists 0%nat. split; reflexivity.
  - reflexivity.
  - repeat constructor.
  - simpl. lia.
  - exists 0%nat. split; reflexivity.
  - reflexivity.
  - reflexivity.
  - reflexivity.
  - reflexivity.
  - repeat split.
  - repeat constructor.
  - simpl. lia.
  - repeat constructor; simpl; lia.
  - repeat constructor; discriminate.
  - exists e'. auto.
Defined.

(** ** Where the stated properties fail *)



(** C7 as stated fails.  A molecule and a backend with no atoms: the
    frame size is zero and [open_file] divides by it, so no cache of any
    capacity is initialized. *)
Lemma open_file_cache_capacity_counterexample :
  md_trajectory_num_atoms Examples.no_atoms = atom_count (Examples.molecule 0)
  /\ (exists g',
        @traj.open_file Examples.platform Examples.numerics Examples.backends
          Examples.start "empty.xyz" None (Examples.molecule 0) = Abort DivisionByZero g')
  /\ ~ (exists h g' e,
          @traj.open_file Examples.platform Examples.numerics Examples.backends
            Examples.start "empty.xyz" None (Examples.molecule 0) = Done (Some h) g'
          /\ find_loaded_trajectory g' h = Some e
          /\ Z.of_nat (List.length (slots (cache e)))
             = spec_cache_capacity (md_trajectory_num_frames (traj e))
                 (atom_count (Examples.molecule 0))
                 (MEGABYTES (@VIAMD_FRAME_CACHE_SIZE Examples.platform))
                 (@md_os_physical_ram Examples.platform)).
Proof.
  split; [reflexivity|]. split.
  - eexists. vm_compute. reflexivity.
  - intros [h [g' [e [H _]]]]. vm_compute in H. discriminate H.
Qed.

(** C9 as stated fails.  After the target was set, a frame loaded and the
    target dropped, [load_frame] of that frame through the handle gives
    other coordinates than through a handle of the same file whose target
    was never set. *)
Lemma set_recenter_target_null_counterexample :
  find_loaded_trajectory Examples.reset Examples.handle = Some Examples.stale
  /\ find_loaded_trajectory Examples.opened Examples.handle = Some Examples.fresh
  /\ Examples.reset = snd (@traj.set_recenter_target Examples.numerics Examples.loaded
                             Examples.handle None)
  /\ recenter_target Examples.fresh = md_bitfield_init
  /\ recenter_target Examples.stale = md_bitfield_init
  /\ @handle_load_frames Examples.numerics Examples.md_util Examples.backends
       Examples.reset Examples.handle [0]
     <> @handle_load_frames Examples.numerics Examples.md_util Examples.backends
          Examples.opened Examples.handle [0]
  /\ Examples.value_of
       (@traj.load_frame Examples.numerics Examples.md_util Examples.backends Examples.stale 0)
     <> Examples.value_of
          (@traj.load_frame Examples.numerics Examples.md_util Examples.backends
             Examples.fresh 0).
Proof.
  split; [reflexivity|]. split; [reflexivity|]. split; [reflexivity|].
  split; [reflexivity|]. split; [reflexivity|].
  split; vm_compute; intros H; inversion H.
Qed.

(** A path without a registered extension: failure, zeroed state,
    allocator untouched. *)
Lemma init_loader_state_success_iff_witness :
  snd (fst (@init_loader_state Examples.platform "notes.txt" (heap Examples.start)))
  = LoaderState_zero
  /\ snd (@init_loader_state Examples.platform "notes.txt" (heap Examples.start))
     = heap Examples.start.
Proof.
  destruct (@init_loader_state_success_iff Examples.platform "notes.txt" (heap Examples.start))
    as [_ [_ H]].
  destruct (H eq_refl) as [H1 [_ H2]]. split; assumption.
Defined.

(** * Further properties of the loader *)

(** ** Extensions *)

Lemma str_eq_eq (a b : string) : str_eq a b = true -> a = b.
Proof.
  revert b. induction a as [|c a IH]; intros [|d b] H; simpl in H; try discriminate; auto.
  apply andb_true_iff in H. destruct H as [H1 H2].
  apply Ascii.eqb_eq in H1. subst. f_equal. auto.
Qed.

Lemma str_eq_refl (a : string) : str_eq a a = true.
Proof.
  induction a as [|c a IH]; simpl; auto. now rewrite Ascii.eqb_refl.
Qed.

(** Two strings equal up to case compare alike with every token. *)
Lemma str_eq_ignore_case_same (a b : string) :
  str_eq_ignore_case a b = true ->
  forall t, str_eq_ignore_case a t = str_eq_ignore_case b t.
Proof.
  revert b. induction a as [|c a IH]; intros [|d b] H t; simpl in H; try discriminate; auto.
  apply andb_true_iff in H. destruct H as [H1 H2].
  apply Ascii.eqb_eq in H1.
  destruct t as [|e t]; simpl; auto.
  rewrite H1. f_equal. auto.
Qed.

Lemma existsb_same {A : Type} (f g : A -> bool) (l : list A) :
  (forall t, f t = g t) -> existsb f l = existsb g l.
Proof.
  intros H. induction l as [|t l IH]; simpl; auto. now rewrite H, IH.
Qed.

Lemma mol_loader_from_ext_loop_same (rest : list mol_loader_t) (a b : string) :
  (forall t, str_eq_ignore_case a t = str_eq_ignore_case b t) ->
  mol_loader_from_ext_loop rest a = mol_loader_from_ext_loop rest b.
Proof.
  intros H. induction rest as [|i rest IH]; simpl; auto.
  rewrite IH. rewrite (existsb_same _ (fun t => str_eq_ignore_case b t)); auto.
Qed.

Lemma traj_loader_from_ext_loop_same (rest : list traj_loader_t) (a b : string) :
  (forall t, str_eq_ignore_case a t = str_eq_ignore_case b t) ->
  traj_loader_from_ext_loop rest a = traj_loader_from_ext_loop rest b.
Proof.
  intros H. induction rest as [|i rest IH]; simpl; auto.
  rewrite IH. rewrite (existsb_same _ (fun t => str_eq_ignore_case b t)); auto.
Qed.

(** X1. The enumerated lookups do not see letter case: two extensions
    that are equal up to case find the same molecule loader and the same
    trajectory loader. *)
Theorem enumerated_lookups_ignore_case (a b : string) :
  str_eq_ignore_case a b = true ->
  mol_loader_from_ext a = mol_loader_from_ext b
  /\ traj_loader_from_ext a = traj_loader_from_ext b.
Proof.
  intros H. pose proof (str_eq_ignore_case_same a b H) as Hs.
  split; [apply mol_loader_from_ext_loop_same|apply traj_loader_from_ext_loop_same]; exact Hs.
Qed.

Lemma enumerated_lookups_ignore_case_witness :
  mol_loader_from_ext "Xmol" = mol_loader_from_ext "xMOL"
  /\ traj_loader_from_ext "Xmol" = traj_loader_from_ext "xMOL".
Proof.
  apply (enumerated_lookups_ignore_case "Xmol" "xMOL"). reflexivity.
Defined.

Ltac split_on_str_eq e :=
  repeat match goal with
         | |- context [str_eq e ?t] =>
             let E := fresh "E" in
             destruct (str_eq e t) eqn:E;
             [apply str_eq_eq in E; subst e; reflexivity|]
         end.

(** X2. The table of namespace [load] and the enumerated arrays name the
    same backends: for an extension spelled exactly as a token of the
    table, [mol::loader_from_ext] and [traj::loader_from_ext] return what
    the enumerated lookups return; for any other spelling they return
    null. *)
Theorem table_lookup_agrees_with_enumerated (e : string) :
  mol.loader_from_ext e
  = (if existsb (fun t => str_eq e t) loader_extensions
     then mol_loader_api (mol_loader_from_ext e) else None)
  /\ traj.loader_from_ext e
     = (if existsb (fun t => str_eq e t) loader_extensions
        then traj_loader_api (traj_loader_from_ext e) else None).
Proof.
  split.
  - unfold mol.loader_from_ext, loader_extensions.
    cbv [mol.loader_from_ext_loop NUM_ENTRIES nth table table_entry_t.ext
         table_entry_t.mol_loader existsb orb].
    split_on_str_eq e. reflexivity.
  - unfold traj.loader_from_ext, loader_extensions.
    cbv [traj.loader_from_ext_loop NUM_ENTRIES nth table table_entry_t.ext
         table_entry_t.traj_loader existsb orb].
    split_on_str_eq e. reflexivity.
Qed.

(** ** The argument blob of the loader state *)

Lemma md_free_fresh (a : md_allocator_i) (size : Z) (data : string) :
  alloc_ok a ->
  blocks (md_free (snd (md_alloc a size data)) (fst (md_alloc a size data))) = blocks a.
Proof.
  intros Hok. unfold md_free, md_alloc. simpl. rewrite Z.eqb_refl. simpl.
  unfold alloc_ok in Hok. induction Hok as [|b l Hb Hl IH]; simpl; auto.
  destruct (Z.eqb_spec (blk_ptr b) (next_ptr a)) as [E|E]; [lia|]. simpl. now rewrite IH.
Qed.

Section BlobProofs.
Context {P : Platform}.

(** What [init_loader_state] leaves of the blob, and the allocator after
    it: one block when the LAMMPS preflight knows the atom format, nothing
    otherwise. *)
Lemma init_loader_state_blob (path : string) (a : md_allocator_i) :
  (LoaderState.data_size (snd (fst (init_loader_state path a))),
   LoaderState.data_ptr (snd (fst (init_loader_state path a))),
   snd (init_loader_state path a))
  = match extract_ext path with
    | Some e =>
        match mol_loader_from_ext e, md_lammps_atom_format_from_file path with
        | MOL_LOADER_LAMMPS, MD_LAMMPS_ATOM_FORMAT n =>
            (sizeof_lammps_arg, Some (next_ptr a),
             snd (md_alloc a sizeof_lammps_arg
                    (md_lammps_atom_format_strings (MD_LAMMPS_ATOM_FORMAT n))))
        | _, _ => (0, None, a)
        end
    | None => (0, None, a)
    end.
Proof.
  unfold init_loader_state.
  destruct (extract_ext path) as [e|]; [|reflexivity].
  destruct (mol_loader_from_ext e); simpl;
    try (destruct (md_lammps_atom_format_from_file path); simpl);
    destruct (traj_loader_from_ext e); simpl;
    try (destruct (md_lammps_atom_format_from_file path)); reflexivity.
Qed.

(** X3. [free_loader_state] after [init_loader_state] gives back what
    was allocated: the allocator holds the blocks it held before, the
    state has no blob left, and a second [free_loader_state] changes
    nothing. *)
Theorem init_then_free_loader_state (path : string) (a : md_allocator_i) :
  alloc_ok a ->
  sizeof_lammps_arg <> 0 ->
  blocks (snd (free_loader_state (snd (fst (init_loader_state path a)))
                 (snd (init_loader_state path a))))
  = blocks a
  /\ LoaderState.data_size
       (fst (free_loader_state (snd (fst (init_loader_state path a)))
               (snd (init_loader_state path a)))) = 0
  /\ LoaderState.data_ptr
       (fst (free_loader_state (snd (fst (init_loader_state path a)))
               (snd (init_loader_state path a)))) = None
  /\ free_loader_state
       (fst (free_loader_state (snd (fst (init_loader_state path a)))
               (snd (init_loader_state path a))))
       (snd (free_loader_state (snd (fst (init_loader_state path a)))
               (snd (init_loader_state path a))))
     = free_loader_state (snd (fst (init_loader_state path a)))
         (snd (init_loader_state path a)).
Proof.
  intros Hok Hsz.
  pose proof (init_loader_state_blob path a) as Hb.
  destruct (init_loader_state path a) as [[ok st] a1]. simpl in *.
  unfold free_loader_state.
  destruct (extract_ext path) as [e|].
  - apply Z.eqb_neq in Hsz.
    destruct (mol_loader_from_ext e);
      destruct (md_lammps_atom_format_from_file path) as [|n];
      inversion Hb as [[H1 H2 H3]];
      repeat (rewrite ?H1, ?H2, ?Hsz; simpl);
      try (repeat split; reflexivity).
    repeat split.
    apply (md_free_fresh a sizeof_lammps_arg _ Hok).
  - inversion Hb as [[H1 H2 H3]]. repeat (rewrite ?H1, ?H2; simpl). repeat split; auto.
Qed.

End BlobProofs.

Lemma init_then_free_loader_state_witness :
  blocks (snd (@free_loader_state
                 (snd (fst (@init_loader_state Examples.platform "full.data"
                              (heap Examples.start))))
                 (snd (@init_loader_state Examples.platform "full.data"
                         (heap Examples.start)))))
  = blocks (heap Examples.start).
Proof.
  destruct (@init_then_free_loader_state Examples.platform "full.data" (heap Examples.start))
    as [H _].
  - constructor.
  - simpl. lia.
  - exact H.
Defined.

(** ** The table of open trajectories *)

Section TableProofs.
Context {N : Numerics}.

Lemma keys_update_entry (l : list LoadedTrajectory) (k : Z) (e' : LoadedTrajectory) :
  key e' = k -> keys (update_entry l k e') = keys l.
Proof.
  intros Hk. induction l as [|a l IH]; simpl; auto.
  destruct (Z.eqb_spec (key a) k) as [E|E]; simpl; congruence.
Qed.

Lemma update_entry_length (l : list LoadedTrajectory) (k : Z) (e' : LoadedTrajectory) :
  List.length (update_entry l k e') = List.length l.
Proof.
  induction l as [|a l IH]; simpl; auto.
  destruct (key a =? k); simpl; auto.
Qed.

Lemma find_update_other (l : list LoadedTrajectory) (k k' : Z) (e' : LoadedTrajectory) :
  key e' = k -> k' <> k ->
  find_entry (update_entry l k e') k' = find_entry l k'.
Proof.
  intros Hk Hne. induction l as [|a l IH]; simpl; auto.
  destruct (Z.eqb_spec (key a) k) as [E|E]; simpl.
  - rewrite Hk. destruct (Z.eqb_spec k k'); [congruence|].
    destruct (Z.eqb_spec (key a) k'); [congruence|]. reflexivity.
  - destruct (key a =? k'); auto.
Qed.

Lemma find_None_keys (l : list LoadedTrajectory) (k : Z) :
  find_entry l k = None <-> ~ In k (keys l).
Proof.
  induction l as [|a l IH]; simpl; [tauto|].
  destruct (Z.eqb_spec (key a) k) as [E|E].
  - split; [discriminate|]. intros H. exfalso. apply H. now left.
  - rewrite IH. tauto.
Qed.

Lemma find_Some_In (l : list LoadedTrajectory) (k : Z) (e : LoadedTrajectory) :
  find_entry l k = Some e -> In e l /\ key e = k.
Proof.
  induction l as [|a l IH]; simpl; [discriminate|].
  destruct (Z.eqb_spec (key a) k) as [E|E].
  - intros H. inversion H; subst. auto.
  - intros H. destruct (IH H). auto.
Qed.

Lemma find_NoDup_In (l : list LoadedTrajectory) (e : LoadedTrajectory) :
  NoDup (keys l) -> In e l -> find_entry l (key e) = Some e.
Proof.
  induction l as [|a l IH]; simpl; [tauto|].
  intros Hnd [H|H].
  - subst. now rewrite Z.eqb_refl.
  - inversion Hnd as [|? ? Hnotin Hnd']; subst.
    destruct (Z.eqb_spec (key a) (key e)) as [E|E]; [|auto].
    exfalso. apply Hnotin. rewrite E. unfold keys. now apply in_map.
Qed.

Lemma find_app_other (l : list LoadedTrajectory) (e : LoadedTrajectory) (k : Z) :
  key e <> k -> find_entry (l ++ [e]) k = find_entry l k.
Proof.
  intros Hne. induction l as [|a l IH]; simpl.
  - destruct (Z.eqb_spec (key e) k); [congruence|reflexivity].
  - destruct (key a =? k); auto.
Qed.

(** Swap back and pop takes out the entry that was found and keeps the
    others. *)
Lemma swap_back_perm (l : list LoadedTrajectory) (k : Z) (e : LoadedTrajectory) :
  find_entry l k = Some e -> Permutation (e :: swap_back_and_pop l k) l.
Proof.
  induction l as [|a l IH]; simpl; [discriminate|].
  destruct (key a =? k) eqn:E.
  - intros H. inversion H; subst. constructor.
    destruct (rev l) as [|lst r] eqn:Hr.
    + apply (f_equal (@rev _)) in Hr. rewrite rev_involutive in Hr. subst. constructor.
    + apply (f_equal (@rev _)) in Hr. rewrite rev_involutive in Hr. subst. simpl.
      apply Permutation_cons_append.
  - intros H. specialize (IH H).
    eapply perm_trans; [apply perm_swap|]. now constructor.
Qed.

Lemma swap_back_fresh_app (l : list LoadedTrajectory) (k : Z) (e' : LoadedTrajectory) :
  find_entry l k = None -> key e' = k ->
  swap_back_and_pop (l ++ [e']) k = l.
Proof.
  intros Hf He'. induction l as [|a l IH]; simpl in *.
  - now rewrite He', Z.eqb_refl.
  - destruct (key a =? k) eqn:E; [discriminate|]. f_equal. auto.
Qed.

Lemma table_ok_same_keys (g g' : globals) :
  keys (loaded_trajectories g') = keys (loaded_trajectories g) ->
  table_ok g -> table_ok g'.
Proof.
  intros Hk [Hnd Hlen]. unfold table_ok, num_loaded_trajectories in *.
  rewrite Hk. split; auto.
  assert (Hl : List.length (loaded_trajectories g') = List.length (loaded_trajectories g)).
  { unfold keys in Hk. apply (f_equal (@List.length _)) in Hk.
    now rewrite !length_map in Hk. }
  now rewrite Hl.
Qed.

Lemma table_ok_app (g : globals) (e : LoadedTrajectory) (l' : list LoadedTrajectory) :
  table_ok g ->
  find_entry (loaded_trajectories g) (key e) = None ->
  num_loaded_trajectories g < ARRAY_SIZE_loaded_trajectories ->
  keys l' = keys (loaded_trajectories g ++ [e]) ->
  NoDup (keys l') /\ Z.of_nat (List.length l') <= ARRAY_SIZE_loaded_trajectories.
Proof.
  intros [Hnd Hlen] Hf Hroom Hk. rewrite Hk. split.
  - unfold keys. rewrite map_app. simpl.
    apply NoDup_incl_NoDup with (l := key e :: map key (loaded_trajectories g)).
    + constructor; auto. now apply find_None_keys.
    + rewrite length_app. simpl. lia.
    + intros k [H|H]; apply in_or_app; [right; now left|now left].
  - assert (Hl : List.length l' = List.length (loaded_trajectories g ++ [e])).
    { unfold keys in Hk. apply (f_equal (@List.length _)) in Hk.
      now rewrite !length_map in Hk. }
    rewrite Hl, length_app. simpl. unfold num_loaded_trajectories in Hroom. lia.
Qed.

(** What [close] does to a handle that is in the table. *)
Lemma close_found (g : globals) (h : Z) (e : LoadedTrajectory) :
  find_loaded_trajectory g h = Some e ->
  traj.close g h
  = Done true
      {| loaded_trajectories := swap_back_and_pop (loaded_trajectories g) h;
         heap := heap g;
         destroyed := traj e :: destroyed g;
         errors := errors g;
         spare_slots := (left_behind (loaded_trajectories g) h ++ spare_slots g)%list;
         handles := zero_handle (handles g) h |}.
Proof.
  intros Hf. unfold traj.close. rewrite Hf. simpl.
  unfold remove_loaded_trajectory.
  destruct (find_Some_In _ _ _ Hf) as [_ Hk]. rewrite Hk, Hf. reflexivity.
Qed.

Lemma closed_table (g : globals) (h : Z) (e : LoadedTrajectory) :
  table_ok g ->
  find_loaded_trajectory g h = Some e ->
  find_entry (swap_back_and_pop (loaded_trajectories g) h) h = None
  /\ (forall k, k <> h ->
        find_entry (swap_back_and_pop (loaded_trajectories g) h) k
        = find_entry (loaded_trajectories g) k)
  /\ NoDup (keys (swap_back_and_pop (loaded_trajectories g) h))
  /\ S (List.length (swap_back_and_pop (loaded_trajectories g) h))
     = List.length (loaded_trajectories g).
Proof.
  intros [Hnd Hlen] Hf. unfold find_loaded_trajectory in Hf.
  set (l := loaded_trajectories g) in *.
  pose proof (swap_back_perm l h e Hf) as Hp.
  destruct (find_Some_In _ _ _ Hf) as [Hin Hk].
  assert (Hnd' : NoDup (keys (e :: swap_back_and_pop l h))).
  { eapply Permutation_NoDup; [|exact Hnd].
    unfold keys. apply Permutation_map. now apply Permutation_sym. }
  simpl in Hnd'. inversion Hnd' as [|? ? Hnotin Hnd'']; subst.
  split; [now apply find_None_keys|]. split; [|split; [exact Hnd''|]].
  - intros k Hne. destruct (find_entry l k) as [e'|] eqn:Hfk.
    + destruct (find_Some_In _ _ _ Hfk) as [Hin' Hk'].
      assert (Hin2 : In e' (e :: swap_back_and_pop l (key e))).
      { eapply Permutation_in; [apply Permutation_sym; exact Hp|exact Hin']. }
      destruct Hin2 as [H|H]; [subst; congruence|].
      rewrite <- Hk'. now apply find_NoDup_In.
    + apply find_None_keys. apply find_None_keys in Hfk.
      intros Hin'. apply Hfk.
      unfold keys in *. apply in_map_iff in Hin'. destruct Hin' as [e' [He' Hi]].
      apply in_map_iff. exists e'. split; auto.
      eapply Permutation_in; [exact Hp|]. now right.
  - apply Permutation_length in Hp. simpl in Hp. exact Hp.
Qed.

End TableProofs.

Section HandleProofs.
Context {P : Platform} {N : Numerics} {U : MdUtil} {B : Backends}.

(** The ways [open_file] can end: null with the table and the allocator
    as they were; the assertions of [alloc_loaded_trajectory]; or, with a
    fresh key in a table that had room, either the division by a zero
    frame size after the entry was added, or a handle. *)
Lemma open_file_cases (g : globals) (filename : string)
    (ld : option md_trajectory_loader_i) (m : md_molecule_t) :
  (exists g',
     traj.open_file g filename ld m = Done None g'
     /\ loaded_trajectories g' = loaded_trajectories g /\ heap g' = heap g)
  \/ (exists g',
        traj.open_file g filename ld m = Abort AssertionFailed g'
        /\ loaded_trajectories g' = loaded_trajectories g)
  \/ (exists inst g',
        traj.open_file g filename ld m = Abort DivisionByZero g'
        /\ find_loaded_trajectory g (next_ptr (heap g)) = None
        /\ num_loaded_trajectories g < ARRAY_SIZE_loaded_trajectories
        /\ key inst = next_ptr (heap g)
        /\ keys (loaded_trajectories g') = keys (loaded_trajectories g ++ [inst]))
  \/ (exists l bt inst g',
        traj.open_file g filename ld m = Done (Some (next_ptr (heap g))) g'
        /\ traj.resolve_loader filename ld = Some l
        /\ traj_loader_create l filename = Some bt
        /\ md_trajectory_num_atoms bt = atom_count m
        /\ find_loaded_trajectory g (next_ptr (heap g)) = None
        /\ num_loaded_trajectories g < ARRAY_SIZE_loaded_trajectories
        /\ key inst = next_ptr (heap g) /\ mol inst = m /\ loader inst = l /\ traj inst = bt
        /\ recenter_target inst = [] /\ deperiodize inst = false
        /\ keys (loaded_trajectories g') = keys (loaded_trajectories g ++ [inst])
        /\ destroyed g' = destroyed g
        /\ find_loaded_trajectory g' (next_ptr (heap g)) = Some inst
        /\ (forall k, k <> next_ptr (heap g) ->
              find_loaded_trajectory g' k = find_loaded_trajectory g k)
        /\ swap_back_and_pop (loaded_trajectories g') (next_ptr (heap g))
           = loaded_trajectories g
        /\ loaded_trajectories g' = (loaded_trajectories g ++ [inst])%list
        /\ handles g'
           = (next_ptr (heap g), List.length (loaded_trajectories g)) :: handles g
        /\ spare_slots g' = tl (spare_slots g)
        /\ errors g' = errors g).
Proof.
  unfold traj.open_file, traj.open_file_with.
  destruct (traj.resolve_loader filename ld) as [l|] eqn:Hl;
    [|left; eexists; split; [reflexivity|split; reflexivity]].
  destruct (traj_loader_create l filename) as [bt|] eqn:Hc;
    [|left; eexists; split; [reflexivity|split; reflexivity]].
  destruct (Z.eqb_spec (md_trajectory_num_atoms bt) (atom_count m)) as [Hn|Hn]; simpl;
    [|left; eexists; split; [reflexivity|split; reflexivity]].
  unfold alloc_loaded_trajectory. simpl.
  destruct (find_loaded_trajectory (set_heap g _) (next_ptr (heap g))) as [e0|] eqn:Hf; simpl;
    [right; left; eexists; split; reflexivity|].
  destruct (Z.ltb_spec (num_loaded_trajectories (set_heap g
              {| next_ptr := next_ptr (heap g) + Z.max sizeof_md_trajectory_i 1;
                 blocks := {| blk_ptr := next_ptr (heap g);
                              blk_size := sizeof_md_trajectory_i;
                              blk_data := "" |} :: blocks (heap g) |}))
              ARRAY_SIZE_loaded_trajectories) as [Hroom|Hroom]; simpl;
    [|right; left; eexists; split; reflexivity].
  right. right. unfold take_next_slot. simpl.
  destruct (traj.num_cache_frames_for bt m) as [n|] eqn:Hcap.
  - right. rewrite list_set_snoc.
    exists l, bt,
      {| key := next_ptr (heap g); mol := m; loader := l; traj := bt;
         cache := md_frame_cache_init n; recenter_target := md_bitfield_init;
         deperiodize := false |}.
    eexists. split; [reflexivity|].
    split; [reflexivity|]. split; [exact Hc|]. split; [exact Hn|].
    split; [exact Hf|]. split; [exact Hroom|].
    do 6 (split; [reflexivity|]).
    split; [reflexivity|]. split; [reflexivity|].
    unfold find_loaded_trajectory. simpl. split; [|split; [|split]].
    + apply find_entry_app_new; auto.
    + intros k Hk. apply find_app_other. simpl. auto.
    + apply swap_back_fresh_app; auto.
    + repeat split.
  - left.
    exists {| key := next_ptr (heap g); mol := m; loader := l; traj := bt;
              cache := {| slots := [] |}; recenter_target := [];
              deperiodize := false |}.
    eexists. split; [reflexivity|].
    split; [exact Hf|]. split; [exact Hroom|]. split; reflexivity.
Qed.

Lemma find_index_app_new (l : list LoadedTrajectory) (k : Z) (e' : LoadedTrajectory) :
  find_entry l k = None -> key e' = k ->
  find_index (l ++ [e'])%list k = Some (List.length l).
Proof.
  intros Hf He'. induction l as [|a l IH]; simpl in *.
  - now rewrite He', Z.eqb_refl.
  - destruct (key a =? k) eqn:E; [discriminate|]. now rewrite IH.
Qed.

(** The handle [open_file] returns is in place: its [inst] member points
    to the entry just added. *)
Lemma open_file_in_place (g : globals) (filename : string)
    (ld : option md_trajectory_loader_i) (m : md_molecule_t) (h : Z) (g' : globals) :
  traj.open_file g filename ld m = Done (Some h) g' ->
  handle_in_place g' h.
Proof.
  intros H.
  destruct (open_file_cases g filename ld m)
    as [(g1 & E & _)|[(g1 & E & _)|[(i1 & g1 & E & _)|
        (l & bt & inst & g1 & E & _ & _ & _ & Hf & _ & Hk & _ & _ & _ & _ & _
           & _ & _ & _ & _ & _ & Hloaded & Hh & _)]]];
    rewrite E in H; inversion H; subst h g'; clear H.
  exists (List.length (loaded_trajectories g)). split.
  - rewrite Hh. simpl. now rewrite Z.eqb_refl.
  - rewrite Hloaded. now apply find_index_app_new.
Qed.

End HandleProofs.

Section HandleClaims.
Context {P : Platform} {N : Numerics} {U : MdUtil} {B : Backends}.

Lemma keys_length (l l' : list LoadedTrajectory) :
  keys l = keys l' -> List.length l = List.length l'.
Proof.
  unfold keys. intros H. apply (f_equal (@List.length _)) in H.
  now rewrite !length_map in H.
Qed.

(** X4. What a return of [open_file] means.  Null: the table and the
    allocator are as before.  A handle: it is the address just allocated,
    it was not in the table, its entry now holds the molecule, a backend
    created by its loader for this file with the molecule's atom count, an
    empty mask and [deperiodize] false; every other handle has the entry
    it had, and no backend was destroyed. *)
Theorem open_file_returns (g : globals) (filename : string)
    (ld : option md_trajectory_loader_i) (m : md_molecule_t)
    (r : option Z) (g' : globals) :
  traj.open_file g filename ld m = Done r g' ->
  match r with
  | None => loaded_trajectories g' = loaded_trajectories g /\ heap g' = heap g
  | Some h =>
      h = next_ptr (heap g)
      /\ find_loaded_trajectory g h = None
      /\ (exists e,
            find_loaded_trajectory g' h = Some e
            /\ key e = h /\ mol e = m
            /\ md_bitfield_empty (recenter_target e) = true /\ deperiodize e = false
            /\ md_trajectory_num_atoms (traj e) = atom_count m
            /\ traj_loader_create (loader e) filename = Some (traj e))
      /\ (forall k, k <> h -> find_loaded_trajectory g' k = find_loaded_trajectory g k)
      /\ num_loaded_trajectories g' = num_loaded_trajectories g + 1
      /\ destroyed g' = destroyed g
  end.
Proof.
  intros H.
  destruct (open_file_cases g filename ld m)
    as [(g1 & E & H1 & H2)|[(g1 & E & _)|[(i1 & g1 & E & _)|
        (l & bt & inst & g1 & E & Hl & Hc & Hn & Hf & Hroom & Hk & Hm & Hld & Ht & Hr & Hd
           & Hkeys & Hdes & Hfind & Hoth & _)]]];
    rewrite E in H; inversion H; subst r g'; clear H.
  - auto.
  - split; [reflexivity|]. split; [exact Hf|]. split.
    + exists inst. rewrite Hr, Hd, Ht, Hld. repeat split; auto.
    + split; [exact Hoth|]. split; [|exact Hdes].
      unfold num_loaded_trajectories. rewrite (keys_length _ _ Hkeys), length_app. simpl. lia.
Qed.

Lemma handle_inst_zero (hs : list (Z * nat)) (h : Z) :
  handle_inst (zero_handle hs h) h = None.
Proof.
  induction hs as [|[a k] hs IH]; simpl; [reflexivity|].
  destruct (a =? h) eqn:E; simpl; [exact IH|]. now rewrite E.
Qed.

(** X5. [close] on a table without duplicate keys.  A handle that is in
    the table: [close] returns true, destroys the backend of that entry,
    the handle is no longer found, every other handle keeps its entry,
    the table has one entry less, nothing is logged and the trajectory
    object is zeroed.  A handle that is not: [close] logs that the
    trajectory was not loaded with the loader and stops at its assertion,
    with the table, the allocator and the trajectory objects as they
    were. *)
Theorem close_removes_handle (g : globals) (h : Z) :
  table_ok g ->
  match find_loaded_trajectory g h with
  | Some e =>
      exists g',
        traj.close g h = Done true g'
        /\ find_loaded_trajectory g' h = None
        /\ (forall k, k <> h -> find_loaded_trajectory g' k = find_loaded_trajectory g k)
        /\ num_loaded_trajectories g' = num_loaded_trajectories g - 1
        /\ destroyed g' = traj e :: destroyed g
        /\ heap g' = heap g
        /\ errors g' = errors g
        /\ handle_inst (handles g') h = None
  | None =>
      exists g',
        traj.close g h = Abort AssertionFailed g'
        /\ loaded_trajectories g' = loaded_trajectories g
        /\ destroyed g' = destroyed g
        /\ errors g'
           = "Attempting to free trajectory which was not loaded with loader" :: errors g
        /\ heap g' = heap g
        /\ handles g' = handles g
  end.
Proof.
  intros Hok. destruct (find_loaded_trajectory g h) as [e|] eqn:Hf.
  - destruct (closed_table g h e Hok Hf) as [H1 [H2 [_ H4]]].
    eexists. split; [apply close_found; exact Hf|].
    unfold find_loaded_trajectory, num_loaded_trajectories. simpl.
    repeat split; auto; [lia|apply handle_inst_zero].
  - unfold traj.close. rewrite Hf. eexists. repeat split.
Qed.

(** X6. [open_file] followed by [close] of the handle it returned puts
    the table back as it was and destroys the backend [open_file]
    created: the one its loader made for this file, which the entry of
    the handle held.  The block allocated for the handle is not given
    back. *)
Theorem open_then_close (g : globals) (filename : string)
    (ld : option md_trajectory_loader_i) (m : md_molecule_t) (h : Z) (g1 : globals) :
  traj.open_file g filename ld m = Done (Some h) g1 ->
  exists g2 bt,
    traj.close g1 h = Done true g2
    /\ loaded_trajectories g2 = loaded_trajectories g
    /\ destroyed g2 = bt :: destroyed g
    /\ md_trajectory_num_atoms bt = atom_count m
    /\ heap g2 = heap g1
    /\ In h (map blk_ptr (blocks (heap g2)))
    /\ (exists l e,
          traj.resolve_loader filename ld = Some l
          /\ traj_loader_create l filename = Some bt
          /\ find_loaded_trajectory g1 h = Some e
          /\ loader e = l
          /\ traj e = bt)
    /\ handle_inst (handles g1) h = Some (List.length (loaded_trajectories g))
    /\ handle_inst (handles g2) h = None.
Proof.
  intros H.
  destruct (open_file_cases g filename ld m)
    as [(g' & E & _)|[(g' & E & _)|[(i1 & g' & E & _)|
        (l & bt & inst & g' & E & Hl & Hc & Hn & Hf & Hroom & Hk & Hm & Hld & Ht & Hr & Hd
           & Hkeys & Hdes & Hfind & Hoth & Hswap & Hloaded & Hh & _)]]];
    rewrite E in H; inversion H; subst h g1; clear H.
  eexists. exists bt.
  split; [apply close_found; exact Hfind|]. simpl.
  split; [exact Hswap|]. split; [congruence|]. split; [exact Hn|]. split; [reflexivity|].
  split.
  { clear - E. unfold traj.open_file, traj.open_file_with in E.
    destruct (traj.resolve_loader filename ld); [|discriminate].
    destruct (traj_loader_create _ filename); [|discriminate].
    destruct (negb _); [discriminate|]. simpl in E.
    unfold alloc_loaded_trajectory in E. simpl in E.
    destruct (find_loaded_trajectory _ _); simpl in E; [discriminate|].
    destruct (num_loaded_trajectories _ <? _); simpl in E; [|discriminate].
    destruct (traj.num_cache_frames_for _ _); [|discriminate].
    inversion E. simpl. now left. }
  split; [exists l, inst; auto|].
  split; [rewrite Hh; simpl; now rewrite Z.eqb_refl|apply handle_inst_zero].
Qed.

(** X7. The reconfiguration calls touch one entry.  For a handle in the
    table each returns true and replaces that entry by one that differs
    in the mask, in the flag, or in the contents of the cache alone (the
    first two leave the cache as it is); for a handle not in the table
    each returns false and the table is as before.  Every other handle
    keeps its entry in all cases. *)
Theorem reconfigure_is_local (g : globals) (h : Z) (mask : option md_bitfield_t) (b : bool)
    (k : Z) :
  match find_loaded_trajectory g h with
  | Some e =>
      fst (traj.set_recenter_target g h mask) = true
      /\ find_loaded_trajectory (snd (traj.set_recenter_target g h mask)) h
         = Some (set_recenter e (match mask with Some mk => mk | None => [] end))
      /\ fst (traj.set_deperiodize g h b) = true
      /\ find_loaded_trajectory (snd (traj.set_deperiodize g h b)) h
         = Some (set_deperiodize_flag e b)
      /\ fst (traj.clear_cache g h) = true
      /\ find_loaded_trajectory (snd (traj.clear_cache g h)) h
         = Some (set_cache e (md_frame_cache_clear (cache e)))
  | None =>
      fst (traj.set_recenter_target g h mask) = false
      /\ loaded_trajectories (snd (traj.set_recenter_target g h mask)) = loaded_trajectories g
      /\ fst (traj.set_deperiodize g h b) = false
      /\ loaded_trajectories (snd (traj.set_deperiodize g h b)) = loaded_trajectories g
      /\ fst (traj.clear_cache g h) = false
      /\ loaded_trajectories (snd (traj.clear_cache g h)) = loaded_trajectories g
  end
  /\ (k <> h ->
      find_loaded_trajectory (snd (traj.set_recenter_target g h mask)) k
      = find_loaded_trajectory g k
      /\ find_loaded_trajectory (snd (traj.set_deperiodize g h b)) k
         = find_loaded_trajectory g k
      /\ find_loaded_trajectory (snd (traj.clear_cache g h)) k
         = find_loaded_trajectory g k).
Proof.
  unfold traj.set_recenter_target, traj.set_deperiodize, traj.clear_cache.
  destruct (find_loaded_trajectory g h) as [e|] eqn:Hf; simpl.
  - destruct (find_Some_In _ _ _ Hf) as [_ Hk].
    unfold find_loaded_trajectory in *. simpl. split.
    + split; [reflexivity|]. split.
      { destruct mask; simpl; apply find_update_entry with (e := e); auto. }
      split; [reflexivity|]. split.
      { apply find_update_entry with (e := e); auto. }
      split; [reflexivity|].
      apply find_update_entry with (e := e); auto.
    + intros Hne. repeat split; apply find_update_other; auto.
  - split; [repeat split|]. intros _. repeat split.
Qed.

(** X8. After [close] returned true for a handle, the handle is unknown:
    the reconfiguration calls return false, [num_cache_frames] returns 0,
    and a second [close] stops at the assertion. *)
Theorem closed_handle_is_unknown (g : globals) (h : Z) (g' : globals)
    (mask : option md_bitfield_t) (b : bool) :
  table_ok g ->
  traj.close g h = Done true g' ->
  fst (traj.set_recenter_target g' h mask) = false
  /\ fst (traj.set_deperiodize g' h b) = false
  /\ fst (traj.clear_cache g' h) = false
  /\ fst (traj.num_cache_frames g' h) = 0
  /\ exists g'', traj.close g' h = Abort AssertionFailed g''.
Proof.
  intros Hok Hc.
  destruct (find_loaded_trajectory g h) as [e|] eqn:Hf.
  - rewrite (close_found g h e Hf) in Hc. inversion Hc; subst g'; clear Hc.
    destruct (closed_table g h e Hok Hf) as [H1 _].
    unfold traj.set_recenter_target, traj.set_deperiodize, traj.clear_cache,
      traj.num_cache_frames, traj.close, find_loaded_trajectory.
    simpl. rewrite H1. simpl. repeat split. eexists. reflexivity.
  - unfold traj.close in Hc. rewrite Hf in Hc. discriminate.
Qed.

End HandleClaims.

(** ** Decoding and the cache *)

Section CacheSlotProofs.
Context {N : Numerics}.

Lemma set_slot_twice (l : list cache_slot) (v : nat) (a b : cache_slot) :
  set_slot (set_slot l v a) v b = set_slot l v b.
Proof.
  revert v. induction l as [|s l IH]; intros [|v]; simpl; auto. now rewrite IH.
Qed.

(** A frame stored where the index was not cached is the one found. *)
Lemma find_slot_stored (idx : Z) (fd : md_frame_data_t) (l : list cache_slot) :
  forall (k v : nat),
    find_slot idx l k = None -> (v < List.length l)%nat ->
    find_slot idx (set_slot l v (SlotPopulated idx fd)) k = Some ((k + v)%nat, fd).
Proof.
  induction l as [|s l IH]; intros k v Hf Hv; simpl in Hv; [lia|].
  destruct v as [|v]; simpl.
  - rewrite Z.eqb_refl. now rewrite Nat.add_0_r.
  - simpl in Hf. replace (k + S v)%nat with (S k + v)%nat by lia.
    destruct s as [|j|j fd'].
    + apply IH; [exact Hf|lia].
    + apply IH; [exact Hf|lia].
    + destruct (j =? idx); [discriminate|]. apply IH; [exact Hf|lia].
Qed.

End CacheSlotProofs.

Section DecodeClaims.
Context {P : Platform} {N : Numerics} {U : MdUtil} {B : Backends}.

(** A decode that returned a frame leaves that frame cached under its
    index. *)
Lemma decode_frame_data_cached (inst inst' : LoadedTrajectory) (idx : Z)
    (fd : md_frame_data_t) :
  traj.decode_frame_data inst idx 8 = Done (Some fd) inst' ->
  0 <= idx < md_trajectory_num_frames (traj inst')
  /\ exists i fd0,
       find_slot idx (slots (cache inst')) 0 = Some (i, fd0) /\ fd = traj.copy_out fd0.
Proof.
  unfold traj.decode_frame_data. simpl.
  destruct ((0 <=? idx) && (idx <? md_trajectory_num_frames (traj inst))) eqn:Hr;
    simpl; [|discriminate].
  apply andb_true_iff in Hr. destruct Hr as [H0 H1].
  apply Z.leb_le in H0. apply Z.ltb_lt in H1.
  unfold traj.decode_through_cache, traj.md_frame_cache_find_or_reserve.
  destruct (find_slot idx (slots (cache inst)) 0) as [[i fd0]|] eqn:Hfind.
  - intros H. inversion H; subst. split; [lia|]. eauto.
  - destruct (Nat.ltb_spec (cache_victim (cache inst) idx) (List.length (slots (cache inst))))
      as [Hv|Hv]; [|discriminate].
    simpl.
    destruct (md_trajectory_decode_frame_data (traj inst)
                (md_trajectory_fetch_frame_data (traj inst) idx)) as [fd0|]; [|discriminate].
    destruct (traj.post_decode _ fd0) as [fd'|]; [|discriminate].
    intros H. inversion H; subst. simpl. split; [lia|].
    exists (cache_victim (cache inst) idx), fd'. split; [|reflexivity].
    unfold traj.md_frame_cache_frame_lock_release, traj.slot_store. simpl.
    rewrite set_slot_twice.
    apply (find_slot_stored idx fd' _ 0 _ Hfind Hv).
Qed.

(** X9. Once [decode_frame_data] has returned a frame, decoding the same
    index again returns the same header and coordinates from the cache
    and leaves the entry as it is, so the backend is not asked again and
    the transform is not applied a second time.  This holds as well after
    the recenter mask or the deperiodize flag were changed: the frame
    decoded under the old settings is returned. *)
Theorem decode_again_returns_cached (inst inst' : LoadedTrajectory) (idx : Z)
    (fd : md_frame_data_t) :
  traj.decode_frame_data inst idx 8 = Done (Some fd) inst' ->
  traj.decode_frame_data inst' idx 8 = Done (Some fd) inst'
  /\ forall (bf : md_bitfield_t) (b : bool),
       traj.decode_frame_data (set_deperiodize_flag (set_recenter inst' bf) b) idx 8
       = Done (Some fd) (set_deperiodize_flag (set_recenter inst' bf) b).
Proof.
  intros H. destruct (decode_frame_data_cached _ _ _ _ H) as [Hr [i [fd0 [Hf Hfd]]]].
  subst fd. split.
  - eapply decode_frame_data_hit; eauto.
  - intros bf b. eapply decode_frame_data_hit; simpl; eauto.
Qed.

(** X10. Whatever its outcome, [decode_frame_data] leaves the key, the
    molecule, the loader, the recenter mask, the deperiodize flag and the
    number of cache slots of the entry as they were, and keeps the same
    backend; the backend is asked to decode at most the one frame. *)
Theorem decode_keeps_configuration (inst : LoadedTrajectory) (idx data_size : Z) :
  key (outcome_state (traj.decode_frame_data inst idx data_size)) = key inst
  /\ mol (outcome_state (traj.decode_frame_data inst idx data_size)) = mol inst
  /\ loader (outcome_state (traj.decode_frame_data inst idx data_size)) = loader inst
  /\ recenter_target (outcome_state (traj.decode_frame_data inst idx data_size))
     = recenter_target inst
  /\ deperiodize (outcome_state (traj.decode_frame_data inst idx data_size))
     = deperiodize inst
  /\ List.length (slots (cache (outcome_state (traj.decode_frame_data inst idx data_size))))
     = List.length (slots (cache inst))
  /\ same_backend (traj inst) (traj (outcome_state (traj.decode_frame_data inst idx data_size)))
  /\ (traj_decoded (traj (outcome_state (traj.decode_frame_data inst idx data_size)))
      = traj_decoded (traj inst)
      \/ traj_decoded (traj (outcome_state (traj.decode_frame_data inst idx data_size)))
         = idx :: traj_decoded (traj inst)).
Proof.
  unfold traj.decode_frame_data.
  destruct (data_size =? 8); simpl; [|repeat split; auto].
  destruct ((0 <=? idx) && (idx <? md_trajectory_num_frames (traj inst)));
    simpl; [|repeat split; auto].
  unfold traj.decode_through_cache, traj.md_frame_cache_find_or_reserve.
  destruct (find_slot idx (slots (cache inst)) 0) as [[i fd0]|];
    [simpl; repeat split; auto|].
  destruct (cache_victim (cache inst) idx <? List.length (slots (cache inst)))%nat;
    [|simpl; repeat split; auto].
  simpl.
  destruct (md_trajectory_decode_frame_data (traj inst)
              (md_trajectory_fetch_frame_data (traj inst) idx)) as [fd0|].
  - destruct (traj.post_decode _ fd0) as [fd'|]; simpl.
    + repeat split; auto.
      unfold traj.md_frame_cache_frame_lock_release, traj.slot_store. simpl. now rewrite !set_slot_length.
    + repeat split; auto. now rewrite set_slot_length.
  - simpl. repeat split; auto.
    unfold traj.md_frame_cache_frame_lock_release, traj.slot_store. simpl. now rewrite !set_slot_length.
Qed.


End DecodeClaims.

Section InvariantClaims.
Context {P : Platform} {N : Numerics} {U : MdUtil} {B : Backends}.

Lemma load_frame_key (inst : LoadedTrajectory) (idx : Z) :
  key (outcome_state (traj.load_frame inst idx)) = key inst.
Proof.
  unfold traj.load_frame, traj.decode_frame_data. simpl.
  destruct ((0 <=? idx) && (idx <? md_trajectory_num_frames (traj inst))); simpl; auto.
  unfold traj.decode_through_cache.
  destruct (traj.md_frame_cache_find_or_reserve (cache inst) idx) as [[i fd|i c]|]; simpl; auto.
  destruct (md_trajectory_decode_frame_data (traj inst)
              (md_trajectory_fetch_frame_data (traj inst) idx)) as [fd0|]; simpl; auto.
  destruct (traj.post_decode _ fd0); simpl; auto.
Qed.

Lemma keys_list_set (l : list LoadedTrajectory) (e' : LoadedTrajectory) : forall (k : nat) e,
  nth_error l k = Some e -> key e' = key e -> keys (list_set l k e') = keys l.
Proof.
  induction l as [|a l IH]; intros [|k] e Hn Hk; simpl in *; try discriminate.
  - inversion Hn; subst. now rewrite Hk.
  - f_equal. eapply IH; eauto.
Qed.

(** X12. The table never holds a key twice nor more entries than its
    array has room for: if that is so before [open_file], [close], a
    reconfiguration call, [num_cache_frames] or a load through a handle,
    it is so after, whether the call returns or stops. *)
Theorem table_stays_well_formed (g : globals) (filename : string)
    (ld : option md_trajectory_loader_i) (m : md_molecule_t) (h : Z)
    (mask : option md_bitfield_t) (b : bool) (idx : Z) :
  table_ok g ->
  table_ok (outcome_state (traj.open_file g filename ld m))
  /\ table_ok (outcome_state (traj.close g h))
  /\ table_ok (snd (traj.set_recenter_target g h mask))
  /\ table_ok (snd (traj.set_deperiodize g h b))
  /\ table_ok (snd (traj.clear_cache g h))
  /\ table_ok (snd (traj.num_cache_frames g h))
  /\ table_ok (outcome_state (traj.traj_load_frame g h idx)).
Proof.
  intros Hok.
  assert (Hupd : forall e e', find_loaded_trajectory g h = Some e -> key e' = key e ->
                   table_ok (set_loaded g (update_entry (loaded_trajectories g) h e'))).
  { intros e e' Hf Hk. apply table_ok_same_keys with (g := g); auto. simpl.
    apply keys_update_entry. destruct (find_Some_In _ _ _ Hf) as [_ Hk']. congruence. }
  split; [|split; [|split; [|split; [|split; [|split]]]]].
  - destruct (open_file_cases g filename ld m)
      as [(g' & E & H1 & _)|[(g' & E & H1)|[(i1 & g' & E & Hf & Hroom & Hk & Hkeys)|
          (l & bt & inst & g' & E & _ & _ & _ & Hf & Hroom & Hk & _ & _ & _ & _ & _
             & Hkeys & _)]]];
      rewrite E; simpl.
    + apply table_ok_same_keys with (g := g); auto. now rewrite H1.
    + apply table_ok_same_keys with (g := g); auto. now rewrite H1.
    + unfold table_ok, num_loaded_trajectories.
      apply (table_ok_app g i1); auto; unfold find_loaded_trajectory in Hf; now rewrite Hk.
    + unfold table_ok, num_loaded_trajectories.
      apply (table_ok_app g inst); auto; unfold find_loaded_trajectory in Hf; now rewrite Hk.
  - destruct (find_loaded_trajectory g h) as [e|] eqn:Hf.
    + rewrite (close_found g h e Hf). simpl.
      destruct (closed_table g h e Hok Hf) as [_ [_ [H3 H4]]].
      destruct Hok as [_ Hlen].
      unfold table_ok, num_loaded_trajectories in *. simpl. split; [exact H3|lia].
    + unfold traj.close. rewrite Hf. simpl.
      apply table_ok_same_keys with (g := g); auto.
  - unfold traj.set_recenter_target.
    destruct (find_loaded_trajectory g h) as [e|] eqn:Hf; simpl.
    + apply (Hupd e); auto.
    + apply table_ok_same_keys with (g := g); auto.
  - unfold traj.set_deperiodize.
    destruct (find_loaded_trajectory g h) as [e|] eqn:Hf; simpl.
    + apply (Hupd e); auto.
    + apply table_ok_same_keys with (g := g); auto.
  - unfold traj.clear_cache.
    destruct (find_loaded_trajectory g h) as [e|] eqn:Hf; simpl.
    + apply (Hupd e); auto.
    + apply table_ok_same_keys with (g := g); auto.
  - unfold traj.num_cache_frames.
    destruct (find_loaded_trajectory g h) as [e|] eqn:Hf; simpl; auto;
      apply table_ok_same_keys with (g := g); auto.
  - unfold traj.traj_load_frame, traj.with_entry, slot_at.
    destruct (handle_inst (handles g) h) as [k|]; simpl; auto.
    destruct (nth_error (loaded_trajectories g ++ spare_slots g) k) as [e|] eqn:Hn;
      simpl; auto.
    pose proof (load_frame_key e idx) as Hk.
    assert (Hset : forall e', key e' = key e -> table_ok (set_slot_at g k e')).
    { intros e' Hk'. unfold set_slot_at.
      destruct (Nat.ltb_spec k (List.length (loaded_trajectories g))) as [Hlt|Hge].
      - apply table_ok_same_keys with (g := g); auto. simpl.
        rewrite nth_error_app1 in Hn by exact Hlt.
        eapply keys_list_set; eauto.
      - apply table_ok_same_keys with (g := g); auto. }
    destruct (traj.load_frame e idx) as [r e'|f e']; simpl in *; apply Hset; auto.
Qed.

End InvariantClaims.

(** ** The handle and cache properties at concrete inputs *)

Lemma examples_table_ok : @table_ok Examples.numerics Examples.opened.
Proof.
  split.
  - repeat constructor. intros [].
  - vm_compute. discriminate.
Qed.

Lemma open_file_returns_witness :
  find_loaded_trajectory Examples.start 4096 = None
  /\ num_loaded_trajectories Examples.opened = num_loaded_trajectories Examples.start + 1.
Proof.
  pose proof (@open_file_returns Examples.platform Examples.numerics Examples.backends
                Examples.start "a.xtc" None (Examples.molecule 2) (Some 4096) Examples.opened
                eq_refl) as H.
  simpl in H. destruct H as [_ [H1 [_ [_ [H2 _]]]]]. split; assumption.
Defined.

Lemma close_removes_handle_witness :
  exists g',
    @traj.close Examples.numerics Examples.opened Examples.handle = Done true g'
    /\ find_loaded_trajectory g' Examples.handle = None.
Proof.
  pose proof (@close_removes_handle Examples.numerics Examples.opened Examples.handle
                examples_table_ok) as H.
  change (find_loaded_trajectory Examples.opened Examples.handle)
    with (Some Examples.fresh) in H.
  destruct H as [g' [H1 [H2 _]]]. exists g'. split; assumption.
Defined.

Lemma open_then_close_witness :
  exists g2 bt,
    @traj.close Examples.numerics Examples.opened 4096 = Done true g2
    /\ loaded_trajectories g2 = loaded_trajectories Examples.start
    /\ destroyed g2 = bt :: destroyed Examples.start.
Proof.
  destruct (@open_then_close Examples.platform Examples.numerics Examples.backends
              Examples.start "a.xtc" None (Examples.molecule 2) 4096 Examples.opened eq_refl)
    as [g2 [bt [H1 [H2 [H3 _]]]]].
  exists g2, bt. repeat split; assumption.
Defined.

Lemma closed_handle_is_unknown_witness :
  fst (@traj.set_recenter_target Examples.numerics CacheExamples.closed Examples.handle None)
  = false
  /\ fst (@traj.num_cache_frames Examples.numerics CacheExamples.closed Examples.handle) = 0.
Proof.
  destruct (@closed_handle_is_unknown Examples.numerics Examples.opened Examples.handle
              CacheExamples.closed None false examples_table_ok eq_refl)
    as [H1 [_ [_ [H2 _]]]].
  split; assumption.
Defined.

Lemma decode_again_returns_cached_witness :
  @traj.decode_frame_data Examples.numerics Examples.md_util Examples.backends
    CacheExamples.after_load 0 8
  = Done (Some CacheExamples.loaded_frame) CacheExamples.after_load
  /\ x CacheExamples.loaded_frame = [Examples.q 0; Examples.q 3].
Proof.
  destruct (@decode_again_returns_cached Examples.numerics Examples.md_util Examples.backends
              Examples.masked CacheExamples.after_load 0 CacheExamples.loaded_frame eq_refl)
    as [H _].
  split; [exact H|reflexivity].
Defined.


Lemma table_stays_well_formed_witness :
  @table_ok Examples.numerics
    (outcome_state
       (@traj.open_file Examples.platform Examples.numerics Examples.backends
          Examples.opened "b.xtc" None (Examples.molecule 2)))
  /\ @table_ok Examples.numerics CacheExamples.closed.
Proof.
  destruct (@table_stays_well_formed Examples.platform Examples.numerics Examples.md_util
              Examples.backends Examples.opened "b.xtc" None (Examples.molecule 2)
              Examples.handle None false 0 examples_table_ok)
    as [H1 [H2 _]].
  split; assumption.
Defined.

(** ** Iso-surfaces *)

Local Open Scope list_scope.

Section ListSet.
Context {A : Type}.

Lemma list_set_length (l : list A) (i : nat) (v : A) :
  List.length (list_set l i v) = List.length l.
Proof.
  revert i. induction l as [|a l IH]; intros [|i]; simpl; auto.
Qed.

Lemma nth_error_list_set_eq (l : list A) (i : nat) (v : A) :
  (i < List.length l)%nat -> nth_error (list_set l i v) i = Some v.
Proof.
  revert i. induction l as [|a l IH]; intros [|i] H; simpl in *; try lia; auto.
  apply IH. lia.
Qed.

Lemma nth_error_list_set_neq (l : list A) (i k : nat) (v : A) :
  i <> k -> nth_error (list_set l i v) k = nth_error l k.
Proof.
  revert i k. induction l as [|a l IH]; intros [|i] [|k] H; simpl; auto; try lia.
Qed.

Lemma list_set_same (l : list A) (i : nat) (a : A) :
  nth_error l i = Some a -> list_set l i a = l.
Proof.
  revert i. induction l as [|b l IH]; intros [|i] H; simpl in *; try discriminate.
  - now inversion H.
  - f_equal. auto.
Qed.

Lemma list_set_app_here (l1 l2 : list A) (b v : A) :
  list_set (l1 ++ b :: l2) (List.length l1) v = l1 ++ v :: l2.
Proof.
  induction l1 as [|a l1 IH]; simpl; auto. now rewrite IH.
Qed.

Lemma list_set_app_right (l1 l2 : list A) (k : nat) (v : A) :
  list_set (l1 ++ l2) (List.length l1 + k) v = l1 ++ list_set l2 k v.
Proof.
  induction l1 as [|a l1 IH]; simpl; auto. now rewrite IH.
Qed.

Lemma skipn_list_set (l : list A) (i n : nat) (v : A) :
  (i < n)%nat -> skipn n (list_set l i v) = skipn n l.
Proof.
  revert i n. induction l as [|a l IH]; intros [|i] [|n] H; simpl; auto; try lia.
  apply IH. lia.
Qed.

Lemma firstn_list_set (l : list A) (i : nat) (v : A) :
  firstn i (list_set l i v) = firstn i l.
Proof.
  revert i. induction l as [|a l IH]; intros [|i]; simpl; auto. now rewrite IH.
Qed.

Lemma firstn_S_list_set (l : list A) (i : nat) (v : A) :
  (i < List.length l)%nat -> firstn (S i) (list_set l i v) = firstn i l ++ [v].
Proof.
  revert i. induction l as [|a l IH]; intros [|i] H; simpl in *; try lia; auto.
  f_equal. apply IH. lia.
Qed.

Lemma swap_list_length (l : list A) (i j : nat) :
  List.length (swap_list l i j) = List.length l.
Proof.
  unfold swap_list. destruct (nth_error l i), (nth_error l j); auto.
  now rewrite !list_set_length.
Qed.

Lemma nth_error_swap_list (l : list A) (i j k : nat) (a b : A) :
  nth_error l i = Some a -> nth_error l j = Some b ->
  nth_error (swap_list l i j) k
  = if Nat.eqb k j then Some a else if Nat.eqb k i then Some b else nth_error l k.
Proof.
  intros Hi Hj. unfold swap_list. rewrite Hi, Hj.
  assert (Hli : (i < List.length l)%nat) by (apply nth_error_Some; congruence).
  assert (Hlj : (j < List.length l)%nat) by (apply nth_error_Some; congruence).
  destruct (Nat.eqb_spec k j) as [E|E].
  - subst. apply nth_error_list_set_eq. now rewrite list_set_length.
  - rewrite nth_error_list_set_neq by auto.
    destruct (Nat.eqb_spec k i) as [E'|E'].
    + subst. now apply nth_error_list_set_eq.
    + now apply nth_error_list_set_neq.
Qed.

Lemma skipn_swap_list (l : list A) (i j n : nat) :
  (i < n)%nat -> (j < n)%nat -> skipn n (swap_list l i j) = skipn n l.
Proof.
  intros Hi Hj. unfold swap_list. destruct (nth_error l i), (nth_error l j); auto.
  now rewrite !skipn_list_set.
Qed.

Lemma swap_list_perm_lt (l : list A) (i j : nat) (a b : A) :
  (i < j)%nat -> nth_error l i = Some a -> nth_error l j = Some b ->
  Permutation (list_set (list_set l i b) j a) l
  /\ Permutation (list_set (list_set l j a) i b) l.
Proof.
  intros Hlt Hi Hj.
  destruct (nth_error_split l i Hi) as [l1 [r [Hl Hlen]]]. subst l.
  assert (Hr : nth_error r (j - S (List.length l1)) = Some b).
  { rewrite nth_error_app2 in Hj by lia.
    replace (j - List.length l1)%nat with (S (j - S (List.length l1))) in Hj by lia.
    exact Hj. }
  destruct (nth_error_split r _ Hr) as [l2 [l3 [Hr' Hlen2]]]. subst r.
  assert (Hj' : j = (List.length l1 + S (List.length l2))%nat) by lia.
  assert (Hp : Permutation (l1 ++ b :: l2 ++ a :: l3) (l1 ++ a :: l2 ++ b :: l3)).
  { apply Permutation_app_head.
    apply perm_trans with (a :: b :: l2 ++ l3).
    - apply perm_trans with (b :: a :: l2 ++ l3); [|apply perm_swap].
      constructor. apply Permutation_sym, Permutation_middle.
    - constructor. apply Permutation_middle. }
  split.
  - subst i. rewrite list_set_app_here. rewrite Hj'.
    rewrite list_set_app_right. simpl.
    change (b :: l2 ++ b :: l3) with ((b :: l2) ++ b :: l3).
    replace (list_set (l2 ++ b :: l3) (List.length l2) a) with (l2 ++ a :: l3)
      by (symmetry; apply list_set_app_here).
    exact Hp.
  - rewrite Hj'. rewrite list_set_app_right. simpl.
    rewrite list_set_app_here. subst i. rewrite list_set_app_here. exact Hp.
Qed.

(** Exchanging two elements rearranges the list. *)
Lemma swap_list_perm (l : list A) (i j : nat) : Permutation (swap_list l i j) l.
Proof.
  unfold swap_list.
  destruct (nth_error l i) as [a|] eqn:Hi; [|reflexivity].
  destruct (nth_error l j) as [b|] eqn:Hj; [|reflexivity].
  destruct (Nat.lt_trichotomy i j) as [H|[H|H]].
  - now apply (swap_list_perm_lt l i j a b).
  - subst j. assert (a = b) by congruence. subst b.
    rewrite (list_set_same l i a Hi). now rewrite (list_set_same l i a Hi).
  - now apply (swap_list_perm_lt l j i b a).
Qed.

End ListSet.

Lemma combine_list_set {A C : Type} (l : list A) (m : list C) (i : nat) (a : A) (c : C) :
  combine (list_set l i a) (list_set m i c) = list_set (combine l m) i (a, c).
Proof.
  revert m i. induction l as [|x l IH]; intros [|y m] [|i]; simpl; auto.
  now rewrite IH.
Qed.

Lemma nth_error_combine {A C : Type} (l : list A) (m : list C) (i : nat) :
  nth_error (combine l m) i
  = match nth_error l i, nth_error m i with
    | Some a, Some c => Some (a, c)
    | _, _ => None
    end.
Proof.
  revert m i. induction l as [|x l IH]; intros [|y m] [|i]; simpl; auto.
  destruct (nth_error l i); reflexivity.
Qed.

Lemma combine_swap_list {A C : Type} (l : list A) (m : list C) (i j : nat) :
  List.length l = List.length m ->
  combine (swap_list l i j) (swap_list m i j) = swap_list (combine l m) i j.
Proof.
  intros Hlen. unfold swap_list. rewrite !nth_error_combine.
  destruct (nth_error l i) as [a|] eqn:Hi.
  - assert (Hmi : (i < List.length m)%nat)
      by (rewrite <- Hlen; apply nth_error_Some; congruence).
    destruct (nth_error m i) as [c|] eqn:Hci; [|apply nth_error_None in Hci; lia].
    destruct (nth_error l j) as [b|] eqn:Hj.
    + assert (Hmj : (j < List.length m)%nat)
        by (rewrite <- Hlen; apply nth_error_Some; congruence).
      destruct (nth_error m j) as [d|] eqn:Hcj; [|apply nth_error_None in Hcj; lia].
      now rewrite !combine_list_set.
    + apply nth_error_None in Hj.
      destruct (nth_error m j) as [d|] eqn:Hcj; [|reflexivity].
      assert ((j < List.length m)%nat) by (apply nth_error_Some; congruence). lia.
  - apply nth_error_None in Hi.
    destruct (nth_error m i) as [c|] eqn:Hci; [|reflexivity].
    assert ((i < List.length m)%nat) by (apply nth_error_Some; congruence). lia.
Qed.

Lemma skipn_combine {A C : Type} (l : list A) (m : list C) (n : nat) :
  skipn n (combine l m) = combine (skipn n l) (skipn n m).
Proof.
  revert l m. induction n as [|n IH]; intros [|x l] [|y m]; simpl; auto.
  destruct (skipn n l); reflexivity.
Qed.

Lemma fold_left_invariant {S X : Type} (f : S -> X -> S) (Inv : S -> Prop) (xs : list X) :
  (forall s x, In x xs -> Inv s -> Inv (f s x)) ->
  forall s, Inv s -> Inv (fold_left f xs s).
Proof.
  induction xs as [|x xs IH]; intros Hstep s Hs; simpl; auto.
  apply IH.
  - intros s' x' Hin. apply Hstep. now right.
  - apply Hstep; auto. now left.
Qed.

Section IsoSurfaceProofs.
Context {N : Numerics} {I : IsoSurfaceEnv}.

Import isosurface.

Lemma sort_step_keeps (n i j : nat) (s0 s : IsoSurface) :
  (i < n)%nat -> (j < n)%nat ->
  (count s = count s0
   /\ List.length (values s) = List.length (values s0)
   /\ List.length (colors s) = List.length (colors s0)
   /\ List.length (values s) = List.length (colors s)
   /\ Permutation (pairs s) (pairs s0)
   /\ skipn n (values s) = skipn n (values s0)
   /\ skipn n (colors s) = skipn n (colors s0)) ->
  (count (sort_step i j s) = count s0
   /\ List.length (values (sort_step i j s)) = List.length (values s0)
   /\ List.length (colors (sort_step i j s)) = List.length (colors s0)
   /\ List.length (values (sort_step i j s)) = List.length (colors (sort_step i j s))
   /\ Permutation (pairs (sort_step i j s)) (pairs s0)
   /\ skipn n (values (sort_step i j s)) = skipn n (values s0)
   /\ skipn n (colors (sort_step i j s)) = skipn n (colors s0)).
Proof.
  intros Hi Hj (Hc & Hlv & Hlc & Hvc & Hp & Hsv & Hsc).
  unfold sort_step.
  destruct (nth_error (values s) j) as [vj|]; [|tauto].
  destruct (nth_error (values s) i) as [vi|]; [|tauto].
  destruct (float_lt vj vi); [|tauto]. simpl.
  rewrite !swap_list_length, !skipn_swap_list by assumption.
  repeat split; auto.
  unfold pairs. simpl. rewrite combine_swap_list by exact Hvc.
  eapply perm_trans; [apply swap_list_perm|exact Hp].
Qed.

(** X13. [sort] moves (value, colour) pairs: with [count] within the
    arrays, the pairs of the arrays after the call are a rearrangement of
    the pairs before, those of the first [count] positions among
    themselves; the positions from [count] on and [count] itself are
    untouched. *)
Theorem sort_rearranges_pairs (s : IsoSurface) :
  List.length (values s) = List.length (colors s) ->
  count s <= Z.of_nat (List.length (values s)) ->
  count (sort s) = count s
  /\ List.length (values (sort s)) = List.length (values s)
  /\ List.length (colors (sort s)) = List.length (colors s)
  /\ Permutation (pairs (sort s)) (pairs s)
  /\ Permutation (firstn (Z.to_nat (count s)) (pairs (sort s)))
       (firstn (Z.to_nat (count s)) (pairs s))
  /\ skipn (Z.to_nat (count s)) (values (sort s)) = skipn (Z.to_nat (count s)) (values s)
  /\ skipn (Z.to_nat (count s)) (colors (sort s)) = skipn (Z.to_nat (count s)) (colors s).
Proof.
  intros Hvc _. set (n := Z.to_nat (count s)).
  assert (H : count (sort s) = count s
              /\ List.length (values (sort s)) = List.length (values s)
              /\ List.length (colors (sort s)) = List.length (colors s)
              /\ List.length (values (sort s)) = List.length (colors (sort s))
              /\ Permutation (pairs (sort s)) (pairs s)
              /\ skipn n (values (sort s)) = skipn n (values s)
              /\ skipn n (colors (sort s)) = skipn n (colors s)).
  { unfold sort. fold n.
    apply fold_left_invariant with
      (Inv := fun s' => count s' = count s
                        /\ List.length (values s') = List.length (values s)
                        /\ List.length (colors s') = List.length (colors s)
                        /\ List.length (values s') = List.length (colors s')
                        /\ Permutation (pairs s') (pairs s)
                        /\ skipn n (values s') = skipn n (values s)
                        /\ skipn n (colors s') = skipn n (colors s)).
    - intros s1 i Hin Hs1. apply in_seq in Hin. unfold sort_inner.
      apply fold_left_invariant with
        (Inv := fun s' => count s' = count s
                          /\ List.length (values s') = List.length (values s)
                          /\ List.length (colors s') = List.length (colors s)
                          /\ List.length (values s') = List.length (colors s')
                          /\ Permutation (pairs s') (pairs s)
                          /\ skipn n (values s') = skipn n (values s)
                          /\ skipn n (colors s') = skipn n (colors s)); [|exact Hs1].
      intros s2 j Hj Hs2. apply in_seq in Hj.
      apply (sort_step_keeps n i j s s2); [lia|lia|exact Hs2].
    - repeat split; auto. }
  destruct H as (Hc & Hlv & Hlc & _ & Hp & Hsv & Hsc).
  repeat split; auto.
  apply Permutation_app_inv_r with (l := skipn n (pairs s)).
  rewrite firstn_skipn.
  replace (skipn n (pairs s)) with (skipn n (pairs (sort s))).
  - now rewrite firstn_skipn.
  - unfold pairs. rewrite !skipn_combine. now rewrite Hsv, Hsc.
Qed.

Section Ordered.
Hypothesis lt_trans :
  forall a b c, float_lt a b = true -> float_lt b c = true -> float_lt a c = true.
Hypothesis lt_asym : forall a b, float_lt a b = true -> float_lt b a = false.

Lemma sort_inner_prefix (n i : nat) (s : IsoSurface) :
  (i < n)%nat -> (n <= List.length (values s))%nat ->
  forall len, (S i + len <= n)%nat ->
    List.length (values (fold_left (fun s j => sort_step i j s) (seq (S i) len) s))
    = List.length (values s)
    /\ (forall k, (k < i)%nat ->
          nth_error (values (fold_left (fun s j => sort_step i j s) (seq (S i) len) s)) k
          = nth_error (values s) k)
    /\ (forall k, (i < k)%nat -> (k < S i + len)%nat ->
          ordered_at (values (fold_left (fun s j => sort_step i j s) (seq (S i) len) s)) i k)
    /\ (forall k, (i <= k)%nat -> (k < n)%nat ->
          exists k', (i <= k')%nat /\ (k' < n)%nat
                     /\ nth_error
                          (values (fold_left (fun s j => sort_step i j s) (seq (S i) len) s)) k
                        = nth_error (values s) k').
Proof.
  intros Hi Hn. induction len as [|len IH]; intros Hlen.
  - simpl. split; [reflexivity|]. split; [auto|]. split; [intros; lia|].
    intros k H1 H2. exists k. auto.
  - rewrite seq_S, fold_left_app. simpl.
    set (s1 := fold_left (fun s j => sort_step i j s) (seq (S i) len) s) in *.
    destruct IH as (Hl & Hb & Hc & Hd); [lia|].
    set (J := S (i + len)).
    assert (HJ : (J < List.length (values s1))%nat) by (unfold J; lia).
    assert (Hi1 : (i < List.length (values s1))%nat) by lia.
    destruct (nth_error (values s1) J) as [vj|] eqn:EJ;
      [|apply nth_error_None in EJ; lia].
    destruct (nth_error (values s1) i) as [vi|] eqn:Ei;
      [|apply nth_error_None in Ei; lia].
    unfold sort_step. rewrite EJ, Ei.
    destruct (float_lt vj vi) eqn:Hlt; simpl.
    + assert (Hnth : forall k, nth_error (swap_list (values s1) i J) k
                               = if Nat.eqb k J then Some vi
                                 else if Nat.eqb k i then Some vj
                                 else nth_error (values s1) k)
        by (intros k; apply nth_error_swap_list; assumption).
      split; [now rewrite swap_list_length|]. split; [|split].
      * intros k Hk. rewrite Hnth.
        destruct (Nat.eqb_spec k J); [unfold J in *; lia|].
        destruct (Nat.eqb_spec k i); [lia|]. auto.
      * intros k Hk1 Hk2 va vk Ha Hvk. rewrite Hnth in Ha, Hvk.
        destruct (Nat.eqb_spec i J); [unfold J in *; lia|].
        rewrite Nat.eqb_refl in Ha. inversion Ha; subst va.
        destruct (Nat.eqb_spec k J).
        -- inversion Hvk; subst vk. now apply lt_asym.
        -- destruct (Nat.eqb_spec k i); [lia|].
           assert (Hk3 : (k < S i + len)%nat) by (unfold J in *; lia).
           pose proof (Hc k Hk1 Hk3 vi vk Ei Hvk) as Ho.
           destruct (float_lt vk vj) eqn:Hkj; [|reflexivity].
           rewrite (lt_trans vk vj vi Hkj Hlt) in Ho. discriminate.
      * intros k Hk1 Hk2. rewrite Hnth.
        destruct (Nat.eqb_spec k J).
        -- destruct (Hd i (le_n i) Hi) as [k' [H1 [H2 H3]]].
           exists k'. rewrite <- H3. auto.
        -- destruct (Nat.eqb_spec k i).
           ++ assert (HJn : (J < n)%nat) by (unfold J; lia).
              assert (HiJ : (i <= J)%nat) by (unfold J; lia).
              destruct (Hd J HiJ HJn) as [k' [H1 [H2 H3]]].
              exists k'. rewrite <- H3. auto.
           ++ apply Hd; auto.
    + split; [exact Hl|]. split; [exact Hb|]. split; [|exact Hd].
      intros k Hk1 Hk2 va vk Ha Hvk.
      destruct (Nat.eq_dec k J) as [E|E].
      * subst k. rewrite Ei in Ha. rewrite EJ in Hvk.
        inversion Ha; inversion Hvk; subst. exact Hlt.
      * apply (Hc k Hk1); auto. unfold J in *. lia.
Qed.

Lemma sort_outer_prefix (n : nat) (s : IsoSurface) :
  (n <= List.length (values s))%nat ->
  forall m, (m <= n - 1)%nat ->
    List.length (values (fold_left (fun s i => sort_inner n i s) (seq 0 m) s))
    = List.length (values s)
    /\ (forall a k, (a < m)%nat -> (a < k)%nat -> (k < n)%nat ->
          ordered_at (values (fold_left (fun s i => sort_inner n i s) (seq 0 m) s)) a k).
Proof.
  intros Hn. induction m as [|m IH]; intros Hm.
  - simpl. split; [reflexivity|]. intros; lia.
  - rewrite seq_S, fold_left_app. simpl.
    set (s1 := fold_left (fun s i => sort_inner n i s) (seq 0 m) s) in *.
    destruct IH as (Hl & Ho); [lia|].
    assert (Hmn : (m < n)%nat) by lia.
    assert (Hn1 : (n <= List.length (values s1))%nat) by lia.
    destruct (sort_inner_prefix n m s1 Hmn Hn1 (n - S m)) as (Hl2 & Hb & Hc & Hd); [lia|].
    unfold sort_inner.
    split; [congruence|].
    intros a k Ha Hak Hk.
    destruct (Nat.eq_dec a m) as [E|E].
    + subst a. apply Hc; lia.
    + assert (Ham : (a < m)%nat) by lia.
      intros va vk Hva Hvk. rewrite (Hb a Ham) in Hva.
      destruct (Nat.lt_ge_cases k m) as [Hkm|Hkm].
      * rewrite (Hb k Hkm) in Hvk. exact (Ho a k Ham Hak Hk va vk Hva Hvk).
      * destruct (Hd k Hkm Hk) as [k' [H1 [H2 H3]]]. rewrite H3 in Hvk.
        apply (Ho a k' Ham); auto. lia.
Qed.

(** X14. When the comparison of the values is transitive and
    asymmetric (no NaN among them) and [count] is within the array,
    [sort] leaves the first [count] values in ascending order: no later
    value is below an earlier one. *)
Theorem sort_orders_values (s : IsoSurface) (a k : nat) :
  (Z.to_nat (count s) <= List.length (values s))%nat ->
  (a < k)%nat -> (k < Z.to_nat (count s))%nat ->
  ordered_at (values (sort s)) a k.
Proof.
  intros Hn Hak Hk. unfold sort.
  destruct (sort_outer_prefix (Z.to_nat (count s)) s Hn (Z.to_nat (count s) - 1)) as [_ H];
    [lia|].
  apply H; lia.
Qed.

End Ordered.

End IsoSurfaceProofs.

Section IsoSurfaceInsert.
Context {N : Numerics} {I : IsoSurfaceEnv}.

Import isosurface.

Lemma array_set_length {A : Type} (l : list A) (i : Z) (v : A) :
  List.length (array_set l i v) = List.length l.
Proof.
  unfold array_set. destruct (i <? 0); auto using list_set_length.
Qed.

(** One [insert] into a surface with room. *)
Lemma insert_with_room (s : IsoSurface) (v : float) (c : vec4) :
  well_formed s -> count s < MaxCount ->
  fst (insert s v c) = true
  /\ well_formed (snd (insert s v c))
  /\ count (snd (insert s v c)) = count s + 1
  /\ firstn (Z.to_nat (count s + 1)) (pairs (snd (insert s v c)))
     = firstn (Z.to_nat (count s)) (pairs s) ++ [(v, c)].
Proof.
  intros (Hv & Hc & H0 & H1) Hroom. unfold insert.
  destruct (Z.geb_spec (count s) MaxCount) as [H|H]; [lia|]. simpl.
  split; [reflexivity|]. split.
  - unfold well_formed. simpl. rewrite !array_set_length. repeat split; auto; lia.
  - split; [reflexivity|].
    unfold pairs, array_set. simpl.
    destruct (Z.ltb_spec (count s) 0) as [Hneg|_]; [lia|].
    rewrite combine_list_set.
    replace (Z.to_nat (count s + 1)) with (S (Z.to_nat (count s))) by lia.
    apply firstn_S_list_set.
    rewrite length_combine, Hv, Hc. lia.
Qed.

(** X15. [insert] fills the arrays in order up to [MaxCount] and no
    further: after a series of inserts into a well-formed surface,
    [count] is the old count plus the number of items, capped at
    [MaxCount]; the first [count] pairs are the old ones followed by the
    items that fitted, in the order given; the surface is still
    well-formed.  After [clear] that is the first [MaxCount] items. *)
Theorem insert_fills_in_order (items : list (float * vec4)) : forall s : IsoSurface,
  well_formed s ->
  well_formed (insert_all s items)
  /\ count (insert_all s items)
     = Z.min (count s + Z.of_nat (List.length items)) MaxCount
  /\ firstn (Z.to_nat (count (insert_all s items))) (pairs (insert_all s items))
     = firstn (Z.to_nat (count s)) (pairs s)
       ++ firstn (Z.to_nat (MaxCount - count s)) items
  /\ (count s = MaxCount -> insert_all s items = s)
  /\ firstn (Z.to_nat (count (insert_all (clear s) items))) (pairs (insert_all (clear s) items))
     = firstn (Z.to_nat MaxCount) items.
Proof.
  assert (Hmain : forall (its : list (float * vec4)) (s : IsoSurface),
             well_formed s ->
             well_formed (insert_all s its)
             /\ count (insert_all s its) = Z.min (count s + Z.of_nat (List.length its)) MaxCount
             /\ firstn (Z.to_nat (count (insert_all s its))) (pairs (insert_all s its))
                = firstn (Z.to_nat (count s)) (pairs s)
                  ++ firstn (Z.to_nat (MaxCount - count s)) its
             /\ (count s = MaxCount -> insert_all s its = s)).
  { induction its as [|[v c] rest IH]; intros s Hwf.
    - simpl. destruct Hwf as (Hv & Hc & H0 & H1).
      split; [repeat split; auto|]. split; [lia|].
      split; [|reflexivity].
      now rewrite firstn_nil, app_nil_r.
    - simpl insert_all.
      destruct (Z_lt_ge_dec (count s) MaxCount) as [Hroom|Hfull].
      + destruct (insert_with_room s v c Hwf Hroom) as (_ & Hwf1 & Hc1 & Hf1).
        destruct (IH (snd (insert s v c)) Hwf1) as (Hwf2 & Hc2 & Hf2 & _).
        split; [exact Hwf2|]. split; [|split; [|lia]].
        * rewrite Hc2, Hc1. simpl List.length. lia.
        * rewrite Hf2, Hc1, Hf1. rewrite <- app_assoc. f_equal. simpl.
          replace (Z.to_nat (MaxCount - count s))
            with (S (Z.to_nat (MaxCount - (count s + 1)))) by lia.
          reflexivity.
      + assert (Hins : insert s v c = (false, s)).
        { unfold insert. destruct (Z.geb_spec (count s) MaxCount); [reflexivity|lia]. }
        rewrite Hins. simpl snd.
        destruct (IH s Hwf) as (Hwf2 & Hc2 & Hf2 & Hsame).
        destruct Hwf as (Hv & Hc & H0 & H1).
        assert (Heq : count s = MaxCount) by lia.
        split; [exact Hwf2|]. split; [|split; [|intros _; now apply Hsame]].
        * rewrite Hc2. simpl List.length. lia.
        * rewrite Hf2. f_equal.
          replace (Z.to_nat (MaxCount - count s)) with O by lia. reflexivity. }
  intros s Hwf.
  destruct (Hmain items s Hwf) as (H1 & H2 & H3 & H4).
  split; [exact H1|]. split; [exact H2|]. split; [exact H3|]. split; [exact H4|].
  assert (Hwfc : well_formed (clear s)).
  { destruct Hwf as (_ & _ & H0 & Hm).
    unfold well_formed, clear. simpl. rewrite !repeat_length. repeat split; lia. }
  destruct (Hmain items (clear s) Hwfc) as (_ & _ & H5 & _).
  rewrite H5. simpl. rewrite Z.sub_0_r. reflexivity.
Qed.

End IsoSurfaceInsert.

(** ** The iso-surface properties at concrete inputs *)

Lemma q_lt_trans (a b c : QArith_base.Q) :
  IsoExamples.q_lt a b = true -> IsoExamples.q_lt b c = true -> IsoExamples.q_lt a c = true.
Proof.
  unfold IsoExamples.q_lt. intros H1 H2.
  destruct (QArith_base.Qcompare a b) eqn:E1; try discriminate.
  destruct (QArith_base.Qcompare b c) eqn:E2; try discriminate.
  apply QArith_base.Qlt_alt in E1. apply QArith_base.Qlt_alt in E2.
  pose proof (QArith_base.Qlt_trans _ _ _ E1 E2) as H.
  apply QArith_base.Qlt_alt in H.
  change (QArith_base.Qcompare a c = Lt) in H. now rewrite H.
Qed.

Lemma q_lt_asym (a b : QArith_base.Q) :
  IsoExamples.q_lt a b = true -> IsoExamples.q_lt b a = false.
Proof.
  unfold IsoExamples.q_lt. intros H1.
  destruct (QArith_base.Qcompare a b) eqn:E1; try discriminate.
  apply QArith_base.Qlt_alt in E1.
  destruct (QArith_base.Qcompare b a) eqn:E2; auto.
  apply QArith_base.Qlt_alt in E2.
  exfalso. apply (QArith_base.Qlt_irrefl a). eapply QArith_base.Qlt_trans; eauto.
Qed.

Lemma sort_rearranges_pairs_witness :
  @isosurface.pairs Examples.numerics IsoExamples.iso_env
    (@isosurface.sort Examples.numerics IsoExamples.iso_env IsoExamples.three)
  = [(Examples.q 1, 10%nat); (Examples.q 2, 20%nat); (Examples.q 3, 30%nat);
     (Examples.q 9, 90%nat)]
  /\ Permutation
       (@isosurface.pairs Examples.numerics IsoExamples.iso_env
          (@isosurface.sort Examples.numerics IsoExamples.iso_env IsoExamples.three))
       (@isosurface.pairs Examples.numerics IsoExamples.iso_env IsoExamples.three).
Proof.
  destruct (@sort_rearranges_pairs Examples.numerics IsoExamples.iso_env IsoExamples.three)
    as (_ & _ & _ & H & _).
  - reflexivity.
  - vm_compute. discriminate.
  - split; [reflexivity|exact H].
Defined.

Lemma sort_orders_values_witness :
  @isosurface.ordered_at Examples.numerics IsoExamples.iso_env
    (@isosurface.values Examples.numerics IsoExamples.iso_env
       (@isosurface.sort Examples.numerics IsoExamples.iso_env IsoExamples.three))
    0 2.
Proof.
  apply (@sort_orders_values Examples.numerics IsoExamples.iso_env q_lt_trans q_lt_asym
           IsoExamples.three 0 2).
  - simpl. lia.
  - lia.
  - simpl. lia.
Defined.

Lemma insert_fills_in_order_witness :
  @isosurface.count Examples.numerics IsoExamples.iso_env
    (@isosurface.insert_all Examples.numerics IsoExamples.iso_env IsoExamples.three
       IsoExamples.items)
  = 4.
Proof.
  destruct (@insert_fills_in_order Examples.numerics IsoExamples.iso_env IsoExamples.items
              IsoExamples.three)
    as (_ & H & _).
  - repeat split; simpl; lia.
  - rewrite H. reflexivity.
Defined.

(** ** More on sorting, molecules and the deperiodize step *)

Section SortAgain.
Context {N : Numerics} {I : IsoSurfaceEnv}.

Import isosurface.

Lemma sort_step_count_length (i j : nat) (s : IsoSurface) :
  count (sort_step i j s) = count s
  /\ List.length (values (sort_step i j s)) = List.length (values s).
Proof.
  unfold sort_step.
  destruct (nth_error (values s) j); [|auto].
  destruct (nth_error (values s) i); [|auto].
  destruct (float_lt _ _); simpl; auto using swap_list_length.
Qed.

Lemma sort_count_length (s : IsoSurface) :
  count (sort s) = count s /\ List.length (values (sort s)) = List.length (values s).
Proof.
  unfold sort.
  apply fold_left_invariant with
    (Inv := fun s' => count s' = count s
                      /\ List.length (values s') = List.length (values s)); [|auto].
  intros s1 i _ Hs1. unfold sort_inner.
  apply fold_left_invariant with
    (Inv := fun s' => count s' = count s
                      /\ List.length (values s') = List.length (values s)); [|auto].
  intros s2 j _ [H1 H2]. destruct (sort_step_count_length i j s2) as [H3 H4].
  split; congruence.
Qed.

(** A surface whose first [count] values are in order is left as it is. *)
Lemma sort_of_ordered (s : IsoSurface) :
  (forall a k, (a < k)%nat -> (k < Z.to_nat (count s))%nat -> ordered_at (values s) a k) ->
  sort s = s.
Proof.
  intros Hord. unfold sort.
  apply fold_left_invariant with (Inv := fun s' => s' = s); [|reflexivity].
  intros s1 i Hi Hs1. subst s1. apply in_seq in Hi. unfold sort_inner.
  apply fold_left_invariant with (Inv := fun s' => s' = s); [|reflexivity].
  intros s2 j Hj Hs2. subst s2. apply in_seq in Hj.
  unfold sort_step.
  destruct (nth_error (values s) j) as [vj|] eqn:Ej; [|reflexivity].
  destruct (nth_error (values s) i) as [vi|] eqn:Ei; [|reflexivity].
  assert (Hij : (i < j)%nat) by lia.
  assert (Hjn : (j < Z.to_nat (count s))%nat) by lia.
  now rewrite (Hord i j Hij Hjn vi vj Ei Ej).
Qed.

(** X16. Sorting twice is sorting once: under the same conditions on
    the comparison, [sort] applied to a sorted surface changes neither
    the values nor the colours. *)
Theorem sort_twice (s : IsoSurface) :
  (forall a b c, float_lt a b = true -> float_lt b c = true -> float_lt a c = true) ->
  (forall a b, float_lt a b = true -> float_lt b a = false) ->
  (Z.to_nat (count s) <= List.length (values s))%nat ->
  sort (sort s) = sort s.
Proof.
  intros Ht Ha Hn. destruct (sort_count_length s) as [Hc Hl].
  apply sort_of_ordered. rewrite Hc. intros a k Hak Hk.
  destruct (sort_outer_prefix Ht Ha (Z.to_nat (count s)) s Hn (Z.to_nat (count s) - 1))
    as [_ H]; [lia|].
  apply H; lia.
Qed.

End SortAgain.

Lemma sort_twice_witness :
  @isosurface.sort Examples.numerics IsoExamples.iso_env
    (@isosurface.sort Examples.numerics IsoExamples.iso_env IsoExamples.three)
  = @isosurface.sort Examples.numerics IsoExamples.iso_env IsoExamples.three.
Proof.
  apply (@sort_twice Examples.numerics IsoExamples.iso_env IsoExamples.three
           q_lt_trans q_lt_asym).
  simpl. lia.
Defined.

Lemma find_loaded_molecule_app (l : list LoadedMolecule.t) (obj : LoadedMolecule.t) :
  find_loaded_molecule l (LoadedMolecule.key obj) = None ->
  find_loaded_molecule (l ++ [obj]) (LoadedMolecule.key obj) = Some obj
  /\ molecule_swap_back_and_pop (l ++ [obj]) (LoadedMolecule.key obj) = l.
Proof.
  induction l as [|a l IH]; simpl.
  - rewrite Z.eqb_refl. auto.
  - destruct (LoadedMolecule.key a =? LoadedMolecule.key obj); [discriminate|].
    intros H. destruct (IH H) as [H1 H2]. split; [exact H1|now rewrite H2].
Qed.

(** X17. The table of loaded molecules: adding an object whose key is
    not in a table with room appends it; it is then found under its key,
    and removing it gives the table back as it was.  Adding a key that is
    present, adding to a full table and removing a key that is absent
    stop at an assertion with the table untouched. *)
Theorem molecule_table_add_remove (l : list LoadedMolecule.t) (obj : LoadedMolecule.t) :
  find_loaded_molecule l (LoadedMolecule.key obj) = None ->
  (Z.of_nat (List.length l) < ARRAY_SIZE_loaded_molecules ->
   add_loaded_molecule l obj = Done tt (l ++ [obj])
   /\ find_loaded_molecule (l ++ [obj]) (LoadedMolecule.key obj) = Some obj
   /\ remove_loaded_molecule (l ++ [obj]) (LoadedMolecule.key obj) = Done tt l)
  /\ (ARRAY_SIZE_loaded_molecules <= Z.of_nat (List.length l) ->
      add_loaded_molecule l obj = Abort AssertionFailed l)
  /\ add_loaded_molecule (l ++ [obj]) obj = Abort AssertionFailed (l ++ [obj])
  /\ remove_loaded_molecule l (LoadedMolecule.key obj) = Abort AssertionFailed l.
Proof.
  intros Hf. destruct (find_loaded_molecule_app l obj Hf) as [H1 H2].
  split; [|split; [|split]].
  - intros Hroom. unfold add_loaded_molecule, remove_loaded_molecule.
    rewrite Hf, H1, H2. simpl.
    apply Z.ltb_lt in Hroom. rewrite Hroom. simpl. auto.
  - intros Hfull. unfold add_loaded_molecule. rewrite Hf. simpl.
    destruct (Z.ltb_spec (Z.of_nat (List.length l)) ARRAY_SIZE_loaded_molecules); [lia|].
    reflexivity.
  - unfold add_loaded_molecule. rewrite H1. reflexivity.
  - unfold remove_loaded_molecule. now rewrite Hf.
Qed.

Lemma molecule_table_add_remove_witness :
  remove_loaded_molecule
    (three_molecules ++ [{| LoadedMolecule.key := 40; LoadedMolecule.alloc := 1 |}]) 40
  = Done tt three_molecules.
Proof.
  destruct (molecule_table_add_remove three_molecules
              {| LoadedMolecule.key := 40; LoadedMolecule.alloc := 1 |} eq_refl)
    as [H _].
  destruct H as [_ [_ H]]; [reflexivity|exact H].
Defined.

Section NoCell.
Context {P : Platform} {N : Numerics} {U : MdUtil} {B : Backends}.


End NoCell.


Lemma reconfigure_is_local_witness :
  find_loaded_trajectory
    (snd (@traj.set_deperiodize Examples.numerics Examples.opened Examples.handle true))
    Examples.handle
  = Some (set_deperiodize_flag Examples.fresh true).
Proof.
  pose proof (@reconfigure_is_local Examples.numerics Examples.opened Examples.handle
                None true 0) as H.
  change (find_loaded_trajectory Examples.opened Examples.handle)
    with (Some Examples.fresh) in H.
  destruct H as [[_ [_ [_ [H _]]]] _]. exact H.
Defined.
